(** * XParserClient: a concurrency-bounded asynchronous HTTP client

    Shallow embedding of [xparser_client.py].  Coroutines are trees of
    effects (semaphore acquire/release, HTTP POST/GET, logging) ending in a
    returned value or a raised exception; [try]/[except] and [async with]
    are tree transformers.  A single call is evaluated against a transport
    oracle; concurrent calls are interleaved by a step relation over a pool
    of coroutines sharing the client's semaphore. *)

From stdpp Require Import base gmap strings list.

Set Default Proof Using "Type".

(** ** Python values, responses and exceptions *)

(** JSON-like Python values: what [response.json()] yields and what is sent
    as a request body.  A [dict] is a finite map keyed by strings. *)
#[warnings="-register-all"]
Inductive pyval : Type :=
  | PNone
  | PBool (b : bool)
  | PInt (z : Z)
  | PStr (s : string)
  | PList (l : list pyval)
  | PDict (d : gmap string pyval).

(** [httpx.Response]: the status code, the raw body text, and the decoded
    body ([None] when [response.json()] raises a decode error). *)
Record Response : Type := mkResponse {
  status_code : Z;
  text : string;
  json : option pyval
}.

(** The exception classes that occur; all derive from [Exception]. *)
Inductive pyexn : Type :=
  | ValueError (msg : string)
  | FileNotFoundError (msg : string)
  | RuntimeError (msg : string)
  | AttributeError (msg : string)
  | JSONDecodeError (msg : string)
  | HTTPStatusError (response : Response)
  | TransportError (msg : string).

Inductive outcome (A : Type) : Type :=
  | Returned (a : A)
  | Raised (e : pyexn).
Arguments Returned {A} a.
Arguments Raised {A} e.

Inductive http_method : Type := POST | GET.

(** One HTTP request as handed to [httpx.AsyncClient]. *)
Record request : Type := mkRequest {
  req_method : http_method;
  req_timeout : Z;
  req_url : string;
  req_json : option pyval
}.

(** What awaiting [client.post]/[client.get] produces: a response, or an
    exception raised by the transport (connect error, timeout, ...). *)
Inductive reply : Type :=
  | Responded (r : Response)
  | Failed (e : pyexn).

Inductive log_level : Type := DEBUG | INFO | WARNING | ERROR.

(** Pieces of an f-string handed to the logger. *)
Inductive fragment : Type :=
  | FLit (s : string)
  | FStr (s : string)
  | FInt (z : Z)
  | FNat (n : nat)
  | FVal (v : pyval)
  | FExn (e : pyexn).

(** ** Coroutines as effect trees *)

Inductive prog (A : Type) : Type :=
  | Ret (a : A)
  | Raise (e : pyexn)
  | Acquire (k : prog A)
  | Release (k : prog A)
  | Http (rq : request) (k : reply → prog A)
  | Log (lvl : log_level) (msg : list fragment) (k : prog A).
Arguments Ret {A} a.
Arguments Raise {A} e.
Arguments Acquire {A} k.
Arguments Release {A} k.
Arguments Http {A} rq k.
Arguments Log {A} lvl msg k.

Fixpoint bind {A B : Type} (p : prog A) (f : A → prog B) : prog B :=
  match p with
  | Ret a => f a
  | Raise e => Raise e
  | Acquire k => Acquire (bind k f)
  | Release k => Release (bind k f)
  | Http rq k => Http rq (λ r, bind (k r) f)
  | Log lvl msg k => Log lvl msg (bind k f)
  end.

#[global] Instance prog_ret : MRet prog := @Ret.
#[global] Instance prog_bind : MBind prog := λ A B f p, bind p f.

(** [try: body except Exception as e: handler e].  An exception raised by
    the handler itself is not handled again. *)
Fixpoint try_except {A : Type} (body : prog A) (handler : pyexn → prog A)
  : prog A :=
  match body with
  | Ret a => Ret a
  | Raise e => handler e
  | Acquire k => Acquire (try_except k handler)
  | Release k => Release (try_except k handler)
  | Http rq k => Http rq (λ r, try_except (k r) handler)
  | Log lvl msg k => Log lvl msg (try_except k handler)
  end.

(** [try: body finally: release()] *)
Fixpoint finally_release {A : Type} (body : prog A) : prog A :=
  match body with
  | Ret a => Release (Ret a)
  | Raise e => Release (Raise e)
  | Acquire k => Acquire (finally_release k)
  | Release k => Release (finally_release k)
  | Http rq k => Http rq (λ r, finally_release (k r))
  | Log lvl msg k => Log lvl msg (finally_release k)
  end.

(** [async with self.semaphore: body] *)
Definition async_with_semaphore {A : Type} (body : prog A) : prog A :=
  Acquire (finally_release body).

Definition logger (lvl : log_level) (msg : list fragment) : prog unit :=
  Log lvl msg (Ret ()).

Definition await_reply (r : reply) : prog Response :=
  match r with
  | Responded resp => Ret resp
  | Failed e => Raise e
  end.

(** [await client.post(url, json=body)] on a client built with [timeout]. *)
Definition client_post (timeout : Z) (url : string) (body : pyval)
  : prog Response :=
  Http (mkRequest POST timeout url (Some body)) await_reply.

(** [await client.get(url)] *)
Definition client_get (timeout : Z) (url : string) : prog Response :=
  Http (mkRequest GET timeout url None) await_reply.

(** [response.raise_for_status()]: httpx raises [HTTPStatusError] carrying
    the response unless the status is 2xx. *)
Definition is_success (status : Z) : bool :=
  bool_decide (200 ≤ status ≤ 299)%Z.

Definition raise_for_status (response : Response) : prog unit :=
  if is_success (status_code response) then Ret ()
  else Raise (HTTPStatusError response).

(** [response.json()] *)
Definition response_json (response : Response) : prog pyval :=
  match json response with
  | Some v => Ret v
  | None => Raise (JSONDecodeError (text response))
  end.

(** [d.get(key)]: only a [dict] has the method; a missing key gives [None]. *)
Definition py_get (d : pyval) (key : string) : prog pyval :=
  match d with
  | PDict m => Ret (default PNone (m !! key))
  | _ => Raise (AttributeError "get")
  end.

(** [v == s] for a string literal [s]. *)
Definition py_eq_str (v : pyval) (s : string) : bool :=
  match v with
  | PStr s' => bool_decide (s' = s)
  | _ => false
  end.

(** [d.update(o)]: every key of [o] is assigned into [d]. *)
Definition dict_update (d o : gmap string pyval) : gmap string pyval := o ∪ d.

(** Truth value of an [Optional[Dict]] in [if options:]. *)
Definition truthy (options : option (gmap string pyval)) : bool :=
  match options with
  | Some o => bool_decide (o ≠ ∅)
  | None => false
  end.

(** ** The client object *)

(** [self.base_url], [self.timeout] and [self.semaphore]; of the semaphore
    only its counter [_value] is state. *)
Record XParserClient : Type := mkClient {
  base_url : string;
  timeout : Z;
  semaphore : Z
}.

(** [asyncio.Semaphore(value)] rejects a negative initial value. *)
Definition Semaphore (value : Z) : outcome Z :=
  if bool_decide (value < 0)%Z
  then Raised (ValueError "Semaphore initial value must be >= 0")
  else Returned value.

Definition default_timeout : Z := 300.
Definition default_max_concurrent : Z := 10.
Definition default_bucket_name : pyval := PStr "aidoc".

(** [XParserClient.__init__] *)
Definition __init__ (base_url : string) (timeout max_concurrent : Z)
  : outcome XParserClient :=
  match Semaphore max_concurrent with
  | Returned sem => Returned (mkClient base_url timeout sem)
  | Raised e => Raised e
  end.

Section Methods.
Variable self : XParserClient.

(** The local [default_options] of [_build_options]. *)
Definition default_options : gmap string pyval :=
  {[ "response_format" := PStr "layout_json";
     "include_bbox" := PBool true;
     "id_marker" := PBool true;
     "group_markers" := PBool true;
     "use_xparser_description" := PBool true ]}.

Definition _build_options (options : option (gmap string pyval))
  : gmap string pyval :=
  if truthy options
  then dict_update default_options (default ∅ options)
  else default_options.

(** The local [default_options] of [_build_options_v2]. *)
Definition default_options_v2 : gmap string pyval :=
  {[ "use_ai_description" := PBool true;
     "table_format" := PStr "markdown" ]}.

Definition _build_options_v2 (options : option (gmap string pyval))
  : gmap string pyval :=
  if truthy options
  then dict_update default_options_v2 (default ∅ options)
  else default_options_v2.

(** The two [except] clauses shared by both parse coroutines. *)
Definition parse_handler (saved_filename : string) (e : pyexn)
  : prog pyval :=
  match e with
  | HTTPStatusError response =>
      if bool_decide (status_code response = 400)%Z then
        Raise (ValueError ("잘못된 요청: " +:+ text response))
      else if bool_decide (status_code response = 404)%Z then
        Raise (FileNotFoundError ("파일 없음: " +:+ saved_filename))
      else if bool_decide (status_code response = 500)%Z then
        let error_text := text response in
        Raise (RuntimeError ("서버 오류: " +:+ error_text))
      else
        logger ERROR [FLit "X-Parser HTTP 오류: ";
                      FInt (status_code response); FLit " - ";
                      FStr (text response)];;
        Raise e
  | _ =>
      logger ERROR [FLit "X-Parser 파싱 실패: "; FStr saved_filename;
                    FLit " - "; FExn e];;
      Raise e
  end.

Definition parse_document (saved_filename : string) (bucket_name : pyval)
    (options : option (gmap string pyval)) : prog pyval :=
  async_with_semaphore (
    let request_data : gmap string pyval :=
      {[ "saved_filename" := PStr saved_filename;
         "bucket_name" := bucket_name;
         "options" := PDict (_build_options options) ]} in
    try_except
      (logger INFO [FLit "X-Parser 파싱 시작: "; FStr saved_filename];;
       logger DEBUG [FLit "요청 옵션: ";
                     FVal (default PNone (request_data !! "options"))];;
       response ← client_post (timeout self)
                    (base_url self +:+ "/api/v2/parse") (PDict request_data);
       raise_for_status response;;
       result ← response_json response;
       logger INFO [FLit "X-Parser 파싱 완료: "; FStr saved_filename];;
       mret result)
      (parse_handler saved_filename)).

Definition parse_document_chunk (saved_filename : string)
    (bucket_name : pyval) (options : option (gmap string pyval))
  : prog pyval :=
  async_with_semaphore (
    let request_data : gmap string pyval :=
      {[ "saved_filename" := PStr saved_filename;
         "bucket_name" := bucket_name;
         "options" := PDict (_build_options_v2 options) ]} in
    try_except
      (logger INFO [FLit "X-Parser 파싱 시작: "; FStr saved_filename];;
       logger DEBUG [FLit "요청 옵션: ";
                     FVal (default PNone (request_data !! "options"))];;
       response ← client_post (timeout self)
                    (base_url self +:+ "/api/v2/chunk") (PDict request_data);
       raise_for_status response;;
       result ← response_json response;
       logger INFO [FLit "X-Parser 파싱 완료: "; FStr saved_filename];;
       mret result)
      (parse_handler saved_filename)).

Definition _safe_parse_document (saved_filename : string)
    (options : option (gmap string pyval)) : prog pyval :=
  try_except
    (parse_document saved_filename PNone options)
    (λ e, logger ERROR [FLit "안전 파싱 실패: "; FStr saved_filename;
                        FLit " - "; FExn e];;
          mret PNone).

(** The list comprehension of [batch_parse_documents]: one coroutine per
    file name, in input order. *)
Definition batch_tasks (saved_filenames : list string)
    (options : option (gmap string pyval)) : list (prog pyval) :=
  (λ saved_filename, _safe_parse_document saved_filename options)
    <$> saved_filenames.

(** The loop of [batch_parse_documents] over [enumerate(results)], where
    [results] is what [asyncio.gather] with [return_exceptions=True]
    yields: per task, its return value or the exception it raised. *)
Fixpoint batch_loop (saved_filenames : list string) (i : nat)
    (results : list (outcome pyval))
    (processed_results : list pyval) (success_count : nat)
  : prog (list pyval * nat) :=
  match results with
  | [] => mret (processed_results, success_count)
  | Raised e :: rest =>
      logger ERROR [FLit "배치 파싱 실패: ";
                    FStr (default "" (saved_filenames !! i));
                    FLit " - "; FExn e];;
      batch_loop saved_filenames (S i) rest
        (processed_results ++ [PNone]) success_count
  | Returned result :: rest =>
      batch_loop saved_filenames (S i) rest
        (processed_results ++ [result]) (S success_count)
  end.

Definition batch_start (saved_filenames : list string) : prog unit :=
  logger INFO [FLit "배치 파싱 시작: "; FNat (length saved_filenames);
               FLit "개 문서"].

Definition batch_finish (saved_filenames : list string)
    (results : list (outcome pyval)) : prog (list pyval) :=
  '(processed_results, success_count) ←
    batch_loop saved_filenames 0 results [] 0;
  logger INFO [FLit "배치 파싱 완료: "; FNat success_count; FLit "/";
               FNat (length saved_filenames); FLit " 성공"];;
  mret processed_results.

Definition check_health : prog bool :=
  try_except
    (response ← client_get 10 (base_url self +:+ "/health");
     if bool_decide (status_code response = 200)%Z then
       health_data ← response_json response;
       status ← py_get health_data "status";
       mret (py_eq_str status "healthy")
     else
       mret false)
    (λ e, logger WARNING [FLit "X-Parser 헬스체크 실패: "; FExn e];;
          mret false).

Definition get_server_info : prog pyval :=
  try_except
    (response ← client_get 10 (base_url self +:+ "/health");
     raise_for_status response;;
     response_json response)
    (λ e, logger ERROR [FLit "서버 정보 조회 실패: "; FExn e];;
          mret PNone).

End Methods.

#[global] Instance prog_fmap : FMap prog := λ A B f p, bind p (λ a, Ret (f a)).

(** ** One call on its own *)

(** The outcome of a coroutine once the limiter admits it, with the
    transport answering request [rq] by [net rq]. *)
Fixpoint eval {A : Type} (net : request → reply) (p : prog A) : outcome A :=
  match p with
  | Ret a => Returned a
  | Raise e => Raised e
  | Acquire k => eval net k
  | Release k => eval net k
  | Http rq k => eval net (k (net rq))
  | Log _ _ k => eval net k
  end.

(** The HTTP requests the coroutine issues on that run, in order. *)
Fixpoint http_requests {A : Type} (net : request → reply) (p : prog A)
  : list request :=
  match p with
  | Ret _ | Raise _ => []
  | Acquire k => http_requests net k
  | Release k => http_requests net k
  | Http rq k => rq :: http_requests net (k (net rq))
  | Log _ _ k => http_requests net k
  end.

(** A stretch of code that neither awaits the network nor touches the
    semaphore runs to its outcome without suspending. *)
Fixpoint run_local {A : Type} (p : prog A) : option (outcome A) :=
  match p with
  | Ret a => Some (Returned a)
  | Raise e => Some (Raised e)
  | Log _ _ k => run_local k
  | Acquire _ | Release _ | Http _ _ => None
  end.

(** ** Concurrent calls sharing one client *)

(** A coroutine is either runnable or suspended on a request it has sent. *)
Inductive tstate (A : Type) : Type :=
  | Run (p : prog A)
  | Wait (rq : request) (k : reply → prog A).
Arguments Run {A} p.
Arguments Wait {A} rq k.

(** [held] counts the limiter units the coroutine has acquired and not yet
    released. *)
Record thread (A : Type) : Type := mkThread {
  code : tstate A;
  held : nat
}.
Arguments mkThread {A} code held.
Arguments code {A} t.
Arguments held {A} t.

Record pool (A : Type) : Type := mkPool {
  client : XParserClient;
  threads : list (thread A)
}.
Arguments mkPool {A} client threads.
Arguments client {A} p.
Arguments threads {A} p.

Definition set_semaphore (c : XParserClient) (value : Z) : XParserClient :=
  mkClient (base_url c) (timeout c) value.

Definition spawn {A : Type} (p : prog A) : thread A := mkThread (Run p) 0.

(** One scheduling step of coroutine [i].  [acquire] proceeds only while the
    counter is positive and decrements it; [release] increments it; a request
    is first sent, and its reply [net i rq] is delivered in a later step. *)
Inductive step {A : Type} (net : nat → request → reply)
  : pool A → pool A → Prop :=
  | step_acquire c ts i k h :
      ts !! i = Some (mkThread (Run (Acquire k)) h) →
      (0 < semaphore c)%Z →
      step net (mkPool c ts)
        (mkPool (set_semaphore c (semaphore c - 1))
                (<[i := mkThread (Run k) (S h)]> ts))
  | step_release c ts i k h :
      ts !! i = Some (mkThread (Run (Release k)) h) →
      step net (mkPool c ts)
        (mkPool (set_semaphore c (semaphore c + 1))
                (<[i := mkThread (Run k) (pred h)]> ts))
  | step_log c ts i lvl msg k h :
      ts !! i = Some (mkThread (Run (Log lvl msg k)) h) →
      step net (mkPool c ts) (mkPool c (<[i := mkThread (Run k) h]> ts))
  | step_send c ts i rq k h :
      ts !! i = Some (mkThread (Run (Http rq k)) h) →
      step net (mkPool c ts) (mkPool c (<[i := mkThread (Wait rq k) h]> ts))
  | step_recv c ts i rq k h :
      ts !! i = Some (mkThread (Wait rq k) h) →
      step net (mkPool c ts)
        (mkPool c (<[i := mkThread (Run (k (net i rq))) h]> ts)).

(** The calls a user can make on a client. *)
Inductive call : Type :=
  | call_parse_document (saved_filename : string) (bucket_name : pyval)
      (options : option (gmap string pyval))
  | call_parse_document_chunk (saved_filename : string) (bucket_name : pyval)
      (options : option (gmap string pyval))
  | call_safe_parse_document (saved_filename : string)
      (options : option (gmap string pyval))
  | call_check_health
  | call_get_server_info.

Definition program_of (self : XParserClient) (c : call) : prog pyval :=
  match c with
  | call_parse_document f b o => parse_document self f b o
  | call_parse_document_chunk f b o => parse_document_chunk self f b o
  | call_safe_parse_document f o => _safe_parse_document self f o
  | call_check_health => PBool <$> check_health self
  | call_get_server_info => get_server_info self
  end.

(** New calls may start at any moment; a batch starts all its tasks. *)
Inductive arrive : pool pyval → pool pyval → Prop :=
  | arrive_call c ts cl :
      arrive (mkPool c ts) (mkPool c (ts ++ [spawn (program_of c cl)]))
  | arrive_batch c ts saved_filenames options :
      arrive (mkPool c ts)
        (mkPool c (ts ++ (spawn <$> batch_tasks c saved_filenames options))).

Definition lifetime (net : nat → request → reply) (s s' : pool pyval)
  : Prop :=
  step net s s' ∨ arrive s s'.

(** Requests of [parse_document]/[parse_document_chunk] that have been sent
    and not yet answered. *)
Definition awaiting_post {A : Type} (t : thread A) : bool :=
  match code t with
  | Wait rq _ => match req_method rq with POST => true | GET => false end
  | Run _ => false
  end.

Definition in_flight {A : Type} (s : pool A) : nat :=
  length (filter (λ t, awaiting_post t = true) (threads s)).

Definition units_held {A : Type} (ts : list (thread A)) : nat :=
  sum_list (held <$> ts).

Definition result_of {A : Type} (t : thread A) : option (outcome A) :=
  match code t with
  | Run (Ret a) => Some (Returned a)
  | Run (Raise e) => Some (Raised e)
  | _ => None
  end.

Definition finished {A : Type} (t : thread A) : Prop := is_Some (result_of t).

(** [await asyncio.gather] over the tasks with [return_exceptions=True]: the tasks run
    interleaved in any order until every one has finished; the result list
    holds, at position [i], what task [i] returned or raised. *)
Definition gather {A : Type} (net : nat → request → reply)
    (c : XParserClient) (tasks : list (prog A))
    (results : list (outcome A)) (c' : XParserClient) : Prop :=
  ∃ ts', rtc (step net) (mkPool c (spawn <$> tasks)) (mkPool c' ts') ∧
         Forall2 (λ t o, result_of t = Some o) ts' results.

(** [batch_parse_documents] returns [processed_results], leaving the client
    as [c']. *)
Definition batch_parse_documents (net : nat → request → reply)
    (self : XParserClient) (saved_filenames : list string)
    (options : option (gmap string pyval))
    (processed_results : list pyval) (c' : XParserClient) : Prop :=
  ∃ results,
    run_local (batch_start saved_filenames) = Some (Returned ()) ∧
    gather net self (batch_tasks self saved_filenames options) results c' ∧
    run_local (batch_finish saved_filenames results)
      = Some (Returned processed_results).

(** Limiter discipline of a coroutine that currently holds [h] units and
    must end holding [l]: [acquire] only when holding none, [release] only
    when holding one, a POST only while holding a unit. *)
Inductive scoped {A : Type} (l : nat) : nat → prog A → Prop :=
  | scoped_ret a : scoped l l (Ret a)
  | scoped_raise e : scoped l l (Raise e)
  | scoped_acquire k : scoped l 1 k → scoped l 0 (Acquire k)
  | scoped_release h k : scoped l h k → scoped l (S h) (Release k)
  | scoped_http h rq k :
      (req_method rq = POST → 0 < h) →
      (∀ r, scoped l h (k r)) →
      scoped l h (Http rq k)
  | scoped_log h lvl msg k : scoped l h k → scoped l h (Log lvl msg k).

Definition thread_ok {A : Type} (t : thread A) : Prop :=
  match code t with
  | Run p => scoped 0 (held t) p
  | Wait rq k =>
      (req_method rq = POST → 0 < held t) ∧ ∀ r, scoped 0 (held t) (k r)
  end.

(** Steps a coroutine still has to take under oracle [net]. *)
Fixpoint cost {A : Type} (net : request → reply) (p : prog A) : nat :=
  match p with
  | Ret _ | Raise _ => 0
  | Acquire k => S (cost net k)
  | Release k => S (cost net k)
  | Http rq k => S (S (cost net (k (net rq))))
  | Log _ _ k => S (cost net k)
  end.

Definition thread_cost {A : Type} (net : request → reply) (t : thread A)
  : nat :=
  match code t with
  | Run p => cost net p
  | Wait rq k => S (cost net (k (net rq)))
  end.

Definition thread_eval {A : Type} (net : request → reply) (t : thread A)
  : outcome A :=
  match code t with
  | Run p => eval net p
  | Wait rq k => eval net (k (net rq))
  end.

(** Sum of [f (i + j) t] over the entries [t] at positions [j]. *)
Fixpoint isum {T : Type} (f : nat → T → nat) (i : nat) (l : list T) : nat :=
  match l with
  | [] => 0
  | t :: l' => f i t + isum f (S i) l'
  end.

Definition pool_cost {A : Type} (net : nat → request → reply)
    (ts : list (thread A)) : nat :=
  isum (λ i t, thread_cost (net i) t) 0 ts.

(** ** Reference definitions taken from the specification's wording *)

(** The default option set of [parse] as the specification words it. *)
Definition spec_parse_defaults : gmap string pyval :=
  {[ "response_format" := PStr "layout_json";
     "include_bbox" := PBool true;
     "id_marker" := PBool true;
     "group_markers" := PBool true;
     "use_description" := PBool true ]}.

(** The default option set of [parseChunk] as the specification words it. *)
Definition spec_chunk_defaults : gmap string pyval :=
  {[ "use_description" := PBool true;
     "table_format" := PStr "markdown" ]}.

(** The error raised for responses of the given status preserves the
    response body text: the text can be read back from the error. *)
Definition body_preserved (p : prog pyval) (status : Z) : Prop :=
  ∃ recover : pyexn → string,
    ∀ r, status_code r = status →
      ∃ e, eval (λ _, Responded r) p = Raised e ∧ recover e = text r.

(** What [batch_parse_documents] owes at position [i] for file [f]. *)
Definition expected_entry (net : nat → request → reply)
    (self : XParserClient) (options : option (gmap string pyval))
    (i : nat) (f : string) : pyval :=
  match eval (net i) (parse_document self f PNone options) with
  | Returned v => v
  | Raised _ => PNone
  end.

(** Example inputs. *)
Definition example_client : XParserClient := mkClient "http://xparser:8000" 300 2.

Definition not_found (body : string) : Response := mkResponse 404 body None.

Definition example_net (i : nat) (rq : request) : reply :=
  match i with
  | 1 => Responded (mkResponse 500 "boom" None)
  | _ => Responded (mkResponse 200 "{}" (Some (PDict ∅)))
  end.

(** Both parse coroutines, for the same arguments. *)
Definition both_parsers (self : XParserClient) (f : string) (b : pyval)
    (o : option (gmap string pyval)) : list (prog pyval) :=
  [parse_document self f b o; parse_document_chunk self f b o].

(** The request a health probe sends. *)
Definition health_request (self : XParserClient) : request :=
  mkRequest GET 10 (base_url self +:+ "/health") None.

(** [s[n:]] *)
Fixpoint drop_prefix (n : nat) (s : string) : string :=
  match n, s with
  | 0, _ => s
  | S n', String _ s' => drop_prefix n' s'
  | S _, EmptyString => EmptyString
  end.

(** What holds of the pool of a client built with [max_concurrent = K]:
    every coroutine keeps the limiter discipline, and the free units plus
    the units held add up to [K]. *)
Definition pool_inv {A : Type} (K : Z) (s : pool A) : Prop :=
  Forall thread_ok (threads s) ∧
  (semaphore (client s) + Z.of_nat (units_held (threads s)) = K)%Z ∧
  (0 ≤ semaphore (client s))%Z.

(** Per coroutine, the outcome it is bound for under its oracle. *)
Definition pool_evals {A : Type} (net : nat → request → reply)
    (ts : list (thread A)) : list (outcome A) :=
  imap (λ i t, thread_eval (net i) t) ts.

(** The entry [batch_parse_documents] appends for one gathered result. *)
Definition collapse (o : outcome pyval) : pyval :=
  match o with
  | Returned v => v
  | Raised _ => PNone
  end.

(** The step coroutine [i] takes next, when it can take one: the step
    relation as a function of the scheduler's choice. *)
Definition step_thread {A : Type} (net : nat → request → reply) (i : nat)
    (s : pool A) : option (pool A) :=
  let c := client s in
  let ts := threads s in
  match ts !! i with
  | Some (mkThread (Run (Acquire k)) h) =>
      if bool_decide (0 < semaphore c)%Z
      then Some (mkPool (set_semaphore c (semaphore c - 1))
                        (<[i := mkThread (Run k) (S h)]> ts))
      else None
  | Some (mkThread (Run (Release k)) h) =>
      Some (mkPool (set_semaphore c (semaphore c + 1))
                   (<[i := mkThread (Run k) (pred h)]> ts))
  | Some (mkThread (Run (Log _ _ k)) h) =>
      Some (mkPool c (<[i := mkThread (Run k) h]> ts))
  | Some (mkThread (Run (Http rq k)) h) =>
      Some (mkPool c (<[i := mkThread (Wait rq k) h]> ts))
  | Some (mkThread (Wait rq k) h) =>
      Some (mkPool c (<[i := mkThread (Run (k (net i rq))) h]> ts))
  | _ => None
  end.

(** Run the coroutines in the order the scheduler picks them; a pick that
    cannot move is skipped. *)
Fixpoint schedule {A : Type} (net : nat → request → reply)
    (picks : list nat) (s : pool A) : pool A :=
  match picks with
  | [] => s
  | i :: picks' => schedule net picks' (default s (step_thread net i s))
  end.

(** A client with one unit on which a batch of two has arrived and whose
    first task has acquired the unit and sent its request. *)
Definition single_slot_client : XParserClient :=
  mkClient "http://xparser:8000" 300 1.

Definition example_batch : pool pyval :=
  mkPool single_slot_client
    (spawn <$> batch_tasks single_slot_client ["a.pdf"; "b.pdf"] None).

Definition example_state : pool pyval :=
  schedule example_net [0; 1; 0; 0; 0; 1] example_batch.

Definition example_final : pool pyval :=
  schedule example_net (replicate 8 0 ++ replicate 8 1) example_batch.

(** ** Further code of the client and of its callers *)

(** [XParserClient.create_minimal_options] *)
Definition create_minimal_options : gmap string pyval :=
  {[ "use_xparser_description" := PBool false;
     "include_bbox" := PBool false;
     "group_markers" := PBool false ]}.

(** [XParserClient.create_full_options] *)
Definition create_full_options : gmap string pyval :=
  {[ "use_xparser_description" := PBool true;
     "include_bbox" := PBool true;
     "id_marker" := PBool true;
     "group_markers" := PBool true ]}.

(** The lines handed to the logger on a run, in order. *)
Fixpoint logged {A : Type} (net : request → reply) (p : prog A)
  : list (log_level * list fragment) :=
  match p with
  | Ret _ | Raise _ => []
  | Acquire k => logged net k
  | Release k => logged net k
  | Http rq k => logged net (k (net rq))
  | Log lvl msg k => (lvl, msg) :: logged net k
  end.

(** A coroutine that never touches the semaphore. *)
Inductive limiter_free {A : Type} : prog A → Prop :=
  | free_ret a : limiter_free (Ret a)
  | free_raise e : limiter_free (Raise e)
  | free_http rq k : (∀ r, limiter_free (k r)) → limiter_free (Http rq k)
  | free_log lvl msg k : limiter_free k → limiter_free (Log lvl msg k).

Definition thread_free {A : Type} (t : thread A) : Prop :=
  match code t with
  | Run p => limiter_free p
  | Wait _ k => ∀ r, limiter_free (k r)
  end.

(** A Python [str] as its sequence of code points, where the characters
    matter one by one. *)
Definition pystr : Type := list N.

(** [ch.isspace()]: the code points CPython counts as whitespace. *)
Definition isspace (c : N) : bool :=
  (bool_decide (9 ≤ c ≤ 13) || bool_decide (28 ≤ c ≤ 32) ||
   bool_decide (c = 0x85) || bool_decide (c = 0xA0) ||
   bool_decide (c = 0x1680) || bool_decide (0x2000 ≤ c ≤ 0x200A) ||
   bool_decide (c = 0x2028) || bool_decide (c = 0x2029) ||
   bool_decide (c = 0x202F) || bool_decide (c = 0x205F) ||
   bool_decide (c = 0x3000))%N.

(** [s.lstrip()] *)
Fixpoint lstrip (s : pystr) : pystr :=
  match s with
  | [] => []
  | c :: s' => if isspace c then lstrip s' else s
  end.

(** [s.rstrip()] *)
Definition rstrip (s : pystr) : pystr := reverse (lstrip (reverse s)).

(** [s.strip()] *)
Definition strip (s : pystr) : pystr := rstrip (lstrip s).

(** [get_env_variable] of [upsert_graphdb.py] and [test_graph.py];
    [env !! name] is [os.getenv(name)]. *)
Definition get_env_variable (env : gmap string pystr) (name : string)
  : outcome pystr :=
  let value := env !! name in
  match value with
  | None =>
      Raised (ValueError ("에러: " +:+ name +:+
        " 변수를 .env에서 찾을 수 없습니다. 파일 위치나 변수명을 확인하세요."))
  | Some v => Returned (strip v)
  end.

(** Calls that go through the limiter. *)
Definition takes_limiter (cl : call) : bool :=
  match cl with
  | call_check_health | call_get_server_info => false
  | _ => true
  end.

(** The [options] entry of a request's JSON body: the options a parse
    request puts into effect. *)
Definition request_options (rq : request) : option pyval :=
  match req_json rq with
  | Some (PDict body) => body !! "options"
  | _ => None
  end.

(** A service that answers every request with status 200 and the JSON body
    [null], and a batch of one file run against it to the end. *)
Definition null_net (i : nat) (rq : request) : reply :=
  Responded (mkResponse 200 "null" (Some PNone)).

Definition null_final : pool pyval :=
  schedule null_net (replicate 8 0)
    (mkPool single_slot_client
       (spawn <$> batch_tasks single_slot_client ["a.pdf"] None)).

(** * Properties *)

(** ** Evaluation commutes with the control operators *)

Section EvalLemmas.
Context {A B : Type} (net : request → reply).

Lemma eval_bind (p : prog A) (f : A → prog B) :
  eval net (p ≫= f) =
    match eval net p with
    | Returned a => eval net (f a)
    | Raised e => Raised e
    end.
Proof.
  unfold mbind, prog_bind.
  induction p as [a|e|k IH|k IH|rq k IH|lvl msg k IH]; simpl; auto.
Qed.

Lemma eval_try_except (p : prog A) (h : pyexn → prog A) :
  eval net (try_except p h) =
    match eval net p with
    | Returned a => Returned a
    | Raised e => eval net (h e)
    end.
Proof.
  induction p as [a|e|k IH|k IH|rq k IH|lvl msg k IH]; simpl; auto.
Qed.

Lemma eval_finally_release (p : prog A) :
  eval net (finally_release p) = eval net p.
Proof.
  induction p as [a|e|k IH|k IH|rq k IH|lvl msg k IH]; simpl; auto.
Qed.

Lemma http_requests_bind (p : prog A) (f : A → prog B) :
  http_requests net (p ≫= f) =
    http_requests net p ++
    match eval net p with
    | Returned a => http_requests net (f a)
    | Raised _ => []
    end.
Proof.
  unfold mbind, prog_bind.
  induction p as [a|e|k IH|k IH|rq k IH|lvl msg k IH]; simpl; auto.
  by rewrite IH.
Qed.

Lemma http_requests_try_except (p : prog A) (h : pyexn → prog A) :
  http_requests net (try_except p h) =
    http_requests net p ++
    match eval net p with
    | Returned _ => []
    | Raised e => http_requests net (h e)
    end.
Proof.
  induction p as [a|e|k IH|k IH|rq k IH|lvl msg k IH]; simpl; auto.
  by rewrite IH.
Qed.

Lemma http_requests_finally_release (p : prog A) :
  http_requests net (finally_release p) = http_requests net p.
Proof.
  induction p as [a|e|k IH|k IH|rq k IH|lvl msg k IH]; simpl; auto.
  by rewrite IH.
Qed.

End EvalLemmas.

(** The error handler never issues a request and always raises. *)
Lemma http_requests_parse_handler net f e :
  http_requests net (parse_handler f e) = [].
Proof.
  destruct e; simpl; try done.
  repeat case_bool_decide; done.
Qed.

(** ** Options *)

Lemma build_options_none : _build_options None = default_options.
Proof. reflexivity. Qed.

Lemma build_options_v2_none : _build_options_v2 None = default_options_v2.
Proof. reflexivity. Qed.

Lemma build_options_some (o : gmap string pyval) :
  _build_options (Some o) = o ∪ default_options.
Proof.
  unfold _build_options, truthy, dict_update; simpl.
  case_bool_decide as Ho; [done|].
  assert (o = ∅) as -> by (destruct (decide (o = ∅)); [done|contradiction]).
  by rewrite (left_id_L ∅ (∪)).
Qed.

Lemma build_options_v2_some (o : gmap string pyval) :
  _build_options_v2 (Some o) = o ∪ default_options_v2.
Proof.
  unfold _build_options_v2, truthy, dict_update; simpl.
  case_bool_decide as Ho; [done|].
  assert (o = ∅) as -> by (destruct (decide (o = ∅)); [done|contradiction]).
  by rewrite (left_id_L ∅ (∪)).
Qed.

Lemma lookup_overlay (o d : gmap string pyval) (k : string) :
  (o ∪ d) !! k = match o !! k with Some v => Some v | None => d !! k end.
Proof.
  rewrite lookup_union. destruct (o !! k), (d !! k); done.
Qed.

(** Key by key, a built mapping is the supplied mapping laid over the
    builder's defaults. *)
Lemma build_options_lookup (o : gmap string pyval) (k : string) :
  (_build_options (Some o) !! k =
     match o !! k with
     | Some v => Some v
     | None => default_options !! k
     end) ∧
  (_build_options_v2 (Some o) !! k =
     match o !! k with
     | Some v => Some v
     | None => default_options_v2 !! k
     end) ∧
  _build_options None = default_options ∧
  _build_options (Some ∅) = default_options ∧
  _build_options_v2 None = default_options_v2 ∧
  _build_options_v2 (Some ∅) = default_options_v2.
Proof.
  rewrite build_options_some, build_options_v2_some, !lookup_overlay.
  repeat split; reflexivity.
Qed.

(** A supplied mapping replaces a default wholesale, it is not merged into
    it; an unknown key passes through; the other defaults stay. *)
Example build_options_overrides :
  let o : gmap string pyval :=
    {[ "response_format" := PDict {[ "kind" := PStr "html" ]};
       "pages" := PInt 3 ]} in
  _build_options (Some o) !! "response_format"
    = Some (PDict {[ "kind" := PStr "html" ]}) ∧
  _build_options (Some o) !! "pages" = Some (PInt 3) ∧
  _build_options (Some o) !! "include_bbox" = Some (PBool true).
Proof. repeat split; reflexivity. Qed.

(** ** Error classification of [parse_document] and [parse_document_chunk] *)

Lemma eval_parsers net self f b o p :
  p ∈ both_parsers self f b o →
  ∃ rq, http_requests net p = [rq] ∧
    eval net p =
      match net rq with
      | Responded r =>
          if is_success (status_code r) then
            match json r with
            | Some v => Returned v
            | None => eval net (parse_handler f (JSONDecodeError (text r)))
            end
          else eval net (parse_handler f (HTTPStatusError r))
      | Failed e => eval net (parse_handler f e)
      end.
Proof.
  unfold both_parsers. rewrite !elem_of_cons, elem_of_nil.
  intros [->|[->|[]]];
    unfold parse_document, parse_document_chunk, async_with_semaphore;
    simpl eval; simpl http_requests;
    rewrite eval_finally_release, eval_try_except,
      http_requests_finally_release, http_requests_try_except;
    simpl; eexists; (split; [f_equal|]).
  all: destruct (net _) as [r|e]; simpl;
    unfold raise_for_status, response_json;
    [ destruct (is_success (status_code r)); simpl;
      [ destruct (json r); simpl |] |];
    rewrite ?http_requests_parse_handler; try done.
  all: repeat case_bool_decide; done.
Qed.

Lemma eval_parsers_response self f b o r p :
  p ∈ both_parsers self f b o →
  is_success (status_code r) = false →
  eval (λ _, Responded r) p =
    eval (λ _, Responded r) (parse_handler f (HTTPStatusError r)).
Proof.
  intros Hp Hs. destruct (eval_parsers (λ _, Responded r) _ _ _ _ _ Hp)
    as (rq & _ & ->). by rewrite Hs.
Qed.

Lemma drop_prefix_app (pre t : string) :
  drop_prefix (String.length pre) (pre +:+ t) = t.
Proof. induction pre as [|a pre IH]; simpl; auto. Qed.

(** C2 as stated fails at 404: the error raised for a 404 names the file
    and is the same whatever the response body was. *)
Lemma not_found_drops_body :
  eval (λ _, Responded (not_found "no such object"))
       (parse_document example_client "doc.pdf" default_bucket_name None)
    = Raised (FileNotFoundError "파일 없음: doc.pdf") ∧
  ¬ body_preserved
      (parse_document example_client "doc.pdf" default_bucket_name None) 404.
Proof.
  split; [reflexivity|].
  intros [recover H].
  destruct (H (not_found "no such object") eq_refl) as (e1 & He1 & Hr1).
  destruct (H (not_found "bucket missing") eq_refl) as (e2 & He2 & Hr2).
  vm_compute in He1, He2. simplify_eq. simpl in *. congruence.
Qed.

(** C2, amended: on a non-2xx response both [parse_document] and
    [parse_document_chunk] raise, by status: 400 a [ValueError] whose
    message ends with the response body text; 404 a [FileNotFoundError]
    whose message ends with the requested file name; 500 a [RuntimeError]
    whose message ends with the response body text; any other status the
    original [HTTPStatusError], which carries the whole response (status
    and body).  For 400 and for 500 the body can be read back from the
    error. *)
Theorem parse_error_classification self f b o r p :
  p ∈ both_parsers self f b o →
  (status_code r = 400%Z →
     eval (λ _, Responded r) p
       = Raised (ValueError ("잘못된 요청: " +:+ text r))) ∧
  (status_code r = 404%Z →
     eval (λ _, Responded r) p
       = Raised (FileNotFoundError ("파일 없음: " +:+ f))) ∧
  (status_code r = 500%Z →
     eval (λ _, Responded r) p
       = Raised (RuntimeError ("서버 오류: " +:+ text r))) ∧
  (is_success (status_code r) = false →
   status_code r ≠ 400%Z → status_code r ≠ 404%Z → status_code r ≠ 500%Z →
     eval (λ _, Responded r) p = Raised (HTTPStatusError r)) ∧
  body_preserved p 400 ∧ body_preserved p 500.
Proof.
  intros Hp.
  assert (Hns : ∀ r' : Response,
            (status_code r' = 400 ∨ status_code r' = 404 ∨
             status_code r' = 500)%Z →
            is_success (status_code r') = false).
  { intros r' H. unfold is_success. apply bool_decide_eq_false_2. lia. }
  split; [|split; [|split; [|split; [|split]]]].
  - intros H. rewrite (eval_parsers_response _ _ _ _ _ _ Hp) by auto.
    simpl. by rewrite H.
  - intros H. rewrite (eval_parsers_response _ _ _ _ _ _ Hp) by auto.
    simpl. by rewrite H.
  - intros H. rewrite (eval_parsers_response _ _ _ _ _ _ Hp) by auto.
    simpl. by rewrite H.
  - intros Hs H1 H2 H3. rewrite (eval_parsers_response _ _ _ _ _ _ Hp Hs).
    simpl. by rewrite !bool_decide_eq_false_2.
  - exists (λ e, match e with
                 | ValueError m =>
                     drop_prefix (String.length "잘못된 요청: ") m
                 | _ => ""
                 end).
    intros r' H. exists (ValueError ("잘못된 요청: " +:+ text r')).
    split; [|apply drop_prefix_app].
    rewrite (eval_parsers_response _ _ _ _ _ _ Hp) by auto.
    simpl. by rewrite H.
  - exists (λ e, match e with
                 | RuntimeError m =>
                     drop_prefix (String.length "서버 오류: ") m
                 | _ => ""
                 end).
    intros r' H. exists (RuntimeError ("서버 오류: " +:+ text r')).
    split; [|apply drop_prefix_app].
    rewrite (eval_parsers_response _ _ _ _ _ _ Hp) by auto.
    simpl. by rewrite H.
Qed.

Lemma parse_error_classification_witness :
  let bad := mkResponse 400 "bad options" None in
  let busy := mkResponse 503 "try later" None in
  let p := parse_document_chunk example_client "doc.pdf" default_bucket_name
             None in
  eval (λ _, Responded bad) p = Raised (ValueError "잘못된 요청: bad options") ∧
  eval (λ _, Responded busy) p = Raised (HTTPStatusError busy).
Proof.
  intros bad busy p.
  assert (Hp : p ∈ both_parsers example_client "doc.pdf"
                 default_bucket_name None)
    by (unfold both_parsers; apply list_elem_of_further, list_elem_of_here).
  split.
  - exact (proj1 (parse_error_classification _ _ _ _ bad p Hp) eq_refl).
  - apply (parse_error_classification _ _ _ _ busy p Hp);
      [reflexivity|simpl; lia..].
Defined.

(** ** Requests issued *)

Lemma http_requests_parse_document net self f b o :
  http_requests net (parse_document self f b o) =
    [mkRequest POST (timeout self) (base_url self +:+ "/api/v2/parse")
       (Some (PDict {[ "saved_filename" := PStr f;
                       "bucket_name" := b;
                       "options" := PDict (_build_options o) ]}))].
Proof.
  destruct (eval_parsers net self f b o (parse_document self f b o))
    as (rq & Hrq & _); [apply list_elem_of_here|].
  rewrite Hrq. unfold parse_document, async_with_semaphore in Hrq.
  simpl in Hrq. rewrite http_requests_finally_release in Hrq.
  simpl in Hrq. by injection Hrq as <- _.
Qed.

Lemma http_requests_parse_document_chunk net self f b o :
  http_requests net (parse_document_chunk self f b o) =
    [mkRequest POST (timeout self) (base_url self +:+ "/api/v2/chunk")
       (Some (PDict {[ "saved_filename" := PStr f;
                       "bucket_name" := b;
                       "options" := PDict (_build_options_v2 o) ]}))].
Proof.
  destruct (eval_parsers net self f b o (parse_document_chunk self f b o))
    as (rq & Hrq & _); [apply list_elem_of_further, list_elem_of_here|].
  rewrite Hrq. unfold parse_document_chunk, async_with_semaphore in Hrq.
  simpl in Hrq. rewrite http_requests_finally_release in Hrq.
  simpl in Hrq. by injection Hrq as <- _.
Qed.

Lemma request_body_shape (f : string) (b : pyval)
    (opts : gmap string pyval) :
  let body : gmap string pyval :=
    {[ "saved_filename" := PStr f; "bucket_name" := b;
       "options" := PDict opts ]} in
  dom body = ({[ "saved_filename"; "bucket_name"; "options" ]}
                : gset string) ∧
  body !! "saved_filename" = Some (PStr f) ∧
  body !! "bucket_name" = Some b ∧
  body !! "options" = Some (PDict opts).
Proof.
  intros body. unfold body. split.
  { rewrite !dom_insert_L, dom_singleton_L. by rewrite (assoc_L (∪)). }
  split; [apply lookup_insert_eq|].
  split.
  { rewrite lookup_insert_ne by done. apply lookup_insert_eq. }
  rewrite !lookup_insert_ne by done. apply lookup_singleton_eq.
Qed.

Lemma request_options_parse_document net self f b o :
  request_options <$> http_requests net (parse_document self f b o)
    = [Some (PDict (_build_options o))].
Proof.
  rewrite http_requests_parse_document.
  destruct (request_body_shape f b (_build_options o)) as (_ & _ & _ & Ho).
  cbn [fmap list_fmap]. unfold request_options. cbn [req_json].
  by rewrite Ho.
Qed.

Lemma request_options_parse_document_chunk net self f b o :
  request_options <$> http_requests net (parse_document_chunk self f b o)
    = [Some (PDict (_build_options_v2 o))].
Proof.
  rewrite http_requests_parse_document_chunk.
  destruct (request_body_shape f b (_build_options_v2 o))
    as (_ & _ & _ & Ho).
  cbn [fmap list_fmap]. unfold request_options. cbn [req_json].
  by rewrite Ho.
Qed.

(** C4: the options that the request of [parse_document], and of
    [parse_document_chunk], carries are the endpoint's defaults with the
    supplied mapping laid over them key by key: a supplied key carries the
    supplied value (whatever that value is, nested mappings included:
    nothing is merged below the top level), a key that was not supplied
    keeps its default, and no options, or an empty mapping, put exactly the
    defaults into the request. *)
Theorem request_options_shallow_merge net self f b
    (m : gmap string pyval) (k : string) :
  (∃ opts,
     request_options <$> http_requests net (parse_document self f b (Some m))
       = [Some (PDict opts)] ∧
     opts !! k = match m !! k with
                 | Some v => Some v
                 | None => default_options !! k
                 end) ∧
  (∃ opts,
     request_options
       <$> http_requests net (parse_document_chunk self f b (Some m))
       = [Some (PDict opts)] ∧
     opts !! k = match m !! k with
                 | Some v => Some v
                 | None => default_options_v2 !! k
                 end) ∧
  request_options <$> http_requests net (parse_document self f b None)
    = [Some (PDict default_options)] ∧
  request_options <$> http_requests net (parse_document self f b (Some ∅))
    = [Some (PDict default_options)] ∧
  request_options <$> http_requests net (parse_document_chunk self f b None)
    = [Some (PDict default_options_v2)] ∧
  request_options
    <$> http_requests net (parse_document_chunk self f b (Some ∅))
    = [Some (PDict default_options_v2)].
Proof.
  rewrite !request_options_parse_document,
    !request_options_parse_document_chunk.
  split; [|split].
  - eexists. split; [reflexivity|].
    by rewrite build_options_some, lookup_overlay.
  - eexists. split; [reflexivity|].
    by rewrite build_options_v2_some, lookup_overlay.
  - repeat split; reflexivity.
Qed.

(** C6 as the specification words it fails: with no options given, the
    request of [parse_document] does not carry the five-key set that names
    [use_description], nor that of [parse_document_chunk] the two-key set
    that names it; the key [use_description] is in neither request. *)
Lemma spec_defaults_differ :
  request_options
    <$> http_requests (example_net 0)
          (parse_document example_client "doc.pdf" default_bucket_name None)
    ≠ [Some (PDict spec_parse_defaults)] ∧
  request_options
    <$> http_requests (example_net 0)
          (parse_document_chunk example_client "doc.pdf" default_bucket_name
             None)
    ≠ [Some (PDict spec_chunk_defaults)] ∧
  default_options !! "use_description" = None ∧
  default_options_v2 !! "use_description" = None.
Proof.
  assert (H1 : default_options !! "use_description" = None) by reflexivity.
  assert (H2 : default_options_v2 !! "use_description" = None)
    by reflexivity.
  rewrite request_options_parse_document,
    request_options_parse_document_chunk.
  split; [intros [= E]; rewrite build_options_none in E; rewrite E in H1;
          discriminate H1|].
  split; [intros [= E]; rewrite build_options_v2_none in E; rewrite E in H2;
          discriminate H2|].
  by split.
Qed.

(** C6, amended: with no options given, the request of [parse_document]
    carries exactly the five keys [response_format], [include_bbox],
    [id_marker], [group_markers] and [use_xparser_description], and the
    request of [parse_document_chunk] exactly the two keys
    [use_ai_description] and [table_format]; the two sets differ. *)
Theorem default_option_sets net self f b :
  request_options <$> http_requests net (parse_document self f b None) =
    [Some (PDict
       {[ "response_format" := PStr "layout_json";
          "include_bbox" := PBool true;
          "id_marker" := PBool true;
          "group_markers" := PBool true;
          "use_xparser_description" := PBool true ]})] ∧
  request_options <$> http_requests net (parse_document_chunk self f b None) =
    [Some (PDict
       {[ "use_ai_description" := PBool true;
          "table_format" := PStr "markdown" ]})] ∧
  dom default_options =
    ({[ "response_format"; "include_bbox"; "id_marker"; "group_markers";
        "use_xparser_description" ]} : gset string) ∧
  size default_options = 5 ∧
  dom default_options_v2 =
    ({[ "use_ai_description"; "table_format" ]} : gset string) ∧
  size default_options_v2 = 2 ∧
  request_options <$> http_requests net (parse_document self f b None) ≠
    request_options <$> http_requests net (parse_document_chunk self f b None).
Proof.
  rewrite request_options_parse_document,
    request_options_parse_document_chunk.
  do 6 (split; [reflexivity|]).
  intros E.
  apply (f_equal (λ l : list (option pyval),
                    match l with
                    | [Some (PDict d)] => d !! "table_format"
                    | _ => None
                    end)) in E.
  discriminate E.
Qed.

(** C5, as the code has it: every run of [parse_document] issues exactly
    one request, a POST with a JSON body, but to [base_url/api/v2/parse],
    which is not [base_url/api/v1/parse]; every run of
    [parse_document_chunk] issues exactly one POST with a JSON body to
    [base_url/api/v2/chunk]. *)
Theorem parse_posts_to_v2 net self f b o :
  (∃ body,
     http_requests net (parse_document self f b o) =
       [mkRequest POST (timeout self) (base_url self +:+ "/api/v2/parse")
          (Some body)]) ∧
  (∃ body,
     http_requests net (parse_document_chunk self f b o) =
       [mkRequest POST (timeout self) (base_url self +:+ "/api/v2/chunk")
          (Some body)]) ∧
  base_url self +:+ "/api/v2/parse" ≠ base_url self +:+ "/api/v1/parse".
Proof.
  split; [|split].
  - eexists. apply http_requests_parse_document.
  - eexists. apply http_requests_parse_document_chunk.
  - intros E. apply (inj (String.app _)) in E. discriminate E.
Qed.

(** The failing input of C5: the URL the code posts to. *)
Example parse_document_url :
  req_url <$> http_requests (example_net 0)
                (parse_document example_client "doc.pdf" default_bucket_name
                   None)
    = ["http://xparser:8000/api/v2/parse"].
Proof. reflexivity. Qed.

(** ** Health probe *)

Lemma eval_check_health net self :
  eval net (check_health self) =
    Returned
      match net (health_request self) with
      | Responded r =>
          if bool_decide (status_code r = 200%Z) then
            match json r with
            | Some (PDict d) => py_eq_str (default PNone (d !! "status")) "healthy"
            | _ => false
            end
          else false
      | Failed _ => false
      end.
Proof.
  unfold check_health, health_request. rewrite eval_try_except. simpl.
  destruct (net _) as [r|e]; simpl; [|done].
  case_bool_decide; simpl; [|done].
  unfold response_json. destruct (json r) as [[]|]; simpl; done.
Qed.

(** C7: [check_health] never raises; it returns [True] exactly when the
    GET to [base_url/health] is answered with status 200 and a body whose
    [status] field is the string [healthy], and [False] in every other case
    (transport failure, another status, an undecodable body, a body that is
    no mapping, another [status] value). *)
Theorem check_health_never_raises net self :
  ∃ b : bool,
    eval net (check_health self) = Returned b ∧
    http_requests net (check_health self) = [health_request self] ∧
    (b = true ↔
       ∃ r d, net (health_request self) = Responded r ∧
              status_code r = 200%Z ∧
              json r = Some (PDict d) ∧
              d !! "status" = Some (PStr "healthy")).
Proof.
  eexists. split; [apply eval_check_health|]. split.
  { unfold check_health, health_request.
    rewrite http_requests_try_except. simpl.
    destruct (net _) as [r|e]; simpl; [|done].
    case_bool_decide; simpl; [|done].
    unfold response_json. destruct (json r) as [[]|]; simpl; done. }
  split.
  - destruct (net _) as [r|e]; [|done].
    case_bool_decide as Hs; [|done].
    destruct (json r) as [[| | | | |d]|] eqn:Hj; try done.
    destruct (d !! "status") as [[| | |s| |]|] eqn:Hd; simpl; try done.
    intros Heq%bool_decide_eq_true_1. subst s. eauto 10.
  - intros (r & d & -> & Hs & -> & ->). simpl.
    by rewrite bool_decide_eq_true_2 by done.
Qed.

Example check_health_cases self :
  eval (λ _, Failed (TransportError "connection refused"))
       (check_health self) = Returned false ∧
  eval (λ _, Responded (mkResponse 503 "" None))
       (check_health self) = Returned false ∧
  eval (λ _, Responded (mkResponse 200 "{...}"
                          (Some (PDict {[ "status" := PStr "degraded" ]}))))
       (check_health self) = Returned false ∧
  eval (λ _, Responded (mkResponse 200 "[]" (Some (PList []))))
       (check_health self) = Returned false ∧
  eval (λ _, Responded (mkResponse 200 "{...}"
                          (Some (PDict {[ "status" := PStr "healthy" ]}))))
       (check_health self) = Returned true.
Proof. repeat split; reflexivity. Qed.

(** ** Safe parsing *)

Lemma eval_safe_parse_document net self f o :
  eval net (_safe_parse_document self f o) =
    match eval net (parse_document self f PNone o) with
    | Returned v => Returned v
    | Raised _ => Returned PNone
    end.
Proof.
  unfold _safe_parse_document. rewrite eval_try_except.
  by destruct (eval net _).
Qed.

(** C8: [_safe_parse_document] never raises: whatever the transport does
    (failure, 4xx, 5xx, anything) it returns, namely exactly the value the
    wrapped [parse_document] call returned, or [None] when that call
    raised. *)
Theorem safe_parse_never_raises net self f o :
  (∃ v, eval net (_safe_parse_document self f o) = Returned v) ∧
  (∀ v, eval net (parse_document self f PNone o) = Returned v →
        eval net (_safe_parse_document self f o) = Returned v) ∧
  (∀ e, eval net (parse_document self f PNone o) = Raised e →
        eval net (_safe_parse_document self f o) = Returned PNone).
Proof.
  rewrite eval_safe_parse_document.
  destruct (eval net (parse_document self f PNone o)) as [v|e];
    (split; [eauto|split]); intros; simplify_eq; done.
Qed.

Lemma safe_parse_never_raises_witness :
  eval (example_net 1)
       (_safe_parse_document example_client "b.pdf" None) = Returned PNone.
Proof.
  apply (proj2 (proj2 (safe_parse_never_raises (example_net 1)
                         example_client "b.pdf" None))
           (RuntimeError "서버 오류: boom")).
  reflexivity.
Defined.

Lemma http_requests_safe_parse_document net self f o :
  http_requests net (_safe_parse_document self f o) =
    http_requests net (parse_document self f PNone o).
Proof.
  unfold _safe_parse_document. rewrite http_requests_try_except.
  destruct (eval net _); simpl; by rewrite app_nil_r.
Qed.

(** C10: the one request issued by [_safe_parse_document], hence by every
    task of a batch, carries [bucket_name = None] in its JSON body, not the
    default ["aidoc"] of [parse_document]. *)
Theorem safe_parse_bucket_is_none net self o :
  (∀ f, ∃ body : gmap string pyval,
     http_requests net (_safe_parse_document self f o) =
       [mkRequest POST (timeout self) (base_url self +:+ "/api/v2/parse")
          (Some (PDict body))] ∧
     body !! "saved_filename" = Some (PStr f) ∧
     body !! "bucket_name" = Some PNone ∧
     body !! "bucket_name" ≠ Some default_bucket_name) ∧
  (∀ fs i task, batch_tasks self fs o !! i = Some task →
     ∃ body : gmap string pyval,
       http_requests net task =
         [mkRequest POST (timeout self) (base_url self +:+ "/api/v2/parse")
            (Some (PDict body))] ∧
       body !! "bucket_name" = Some PNone).
Proof.
  assert (H : ∀ f, ∃ body : gmap string pyval,
     http_requests net (_safe_parse_document self f o) =
       [mkRequest POST (timeout self) (base_url self +:+ "/api/v2/parse")
          (Some (PDict body))] ∧
     body !! "saved_filename" = Some (PStr f) ∧
     body !! "bucket_name" = Some PNone ∧
     body !! "bucket_name" ≠ Some default_bucket_name).
  { intros f. eexists.
    rewrite http_requests_safe_parse_document, http_requests_parse_document.
    split; [reflexivity|]. by simplify_map_eq. }
  split; [exact H|].
  intros fs i task Ht. unfold batch_tasks in Ht.
  rewrite list_lookup_fmap in Ht.
  destruct (fs !! i) as [f|]; [|done]. simpl in Ht. simplify_eq.
  destruct (H f) as (body & ? & ? & ? & ?). eauto.
Qed.

Lemma safe_parse_bucket_is_none_witness :
  ∃ body : gmap string pyval,
    http_requests (example_net 0)
      (_safe_parse_document example_client "b.pdf" None) =
      [mkRequest POST 300 "http://xparser:8000/api/v2/parse"
         (Some (PDict body))] ∧
    body !! "bucket_name" = Some PNone.
Proof.
  apply (proj2 (safe_parse_bucket_is_none (example_net 0) example_client None)
           ["a.pdf"; "b.pdf"] 1).
  reflexivity.
Defined.

(** ** Limiter discipline of the client's coroutines *)

Section Scoped.
Context {A B : Type}.

Lemma scoped_bind l h (p : prog A) (f : A → prog B) :
  scoped l h p → (∀ a, scoped l l (f a)) → scoped l h (p ≫= f).
Proof.
  unfold mbind, prog_bind. intros Hp Hf.
  induction Hp as [a|e|k Hk IH|h k Hk IH|h rq k Hm Hk IH|h lvl msg k Hk IH];
    simpl; [apply Hf|constructor..]; auto.
Qed.

Lemma scoped_try_except l h (p : prog A) (hd : pyexn → prog A) :
  scoped l h p → (∀ e, scoped l l (hd e)) → scoped l h (try_except p hd).
Proof.
  intros Hp Hh.
  induction Hp as [a|e|k Hk IH|h k Hk IH|h rq k Hm Hk IH|h lvl msg k Hk IH];
    simpl; [constructor|apply Hh|constructor..]; auto.
Qed.

Lemma scoped_finally_release l h (p : prog A) :
  scoped (S l) h p → scoped l h (finally_release p).
Proof.
  intros Hp.
  induction Hp as [a|e|k Hk IH|h k Hk IH|h rq k Hm Hk IH|h lvl msg k Hk IH];
    simpl; repeat constructor; auto.
Qed.

Lemma scoped_async_with (p : prog A) :
  scoped 1 1 p → scoped 0 0 (async_with_semaphore p).
Proof.
  intros Hp. constructor. by apply scoped_finally_release.
Qed.

End Scoped.

Lemma scoped_logger l lvl msg : scoped l l (logger lvl msg).
Proof. repeat constructor. Qed.

Lemma scoped_client_post l tmo url body :
  0 < l → scoped l l (client_post tmo url body).
Proof.
  intros Hl. constructor; [done|]. intros [r|e]; constructor.
Qed.

Lemma scoped_client_get l tmo url : scoped l l (client_get tmo url).
Proof.
  constructor; [done|]. intros [r|e]; constructor.
Qed.

Lemma scoped_raise_for_status l r : scoped l l (raise_for_status r).
Proof. unfold raise_for_status. destruct (is_success _); constructor. Qed.

Lemma scoped_response_json l r : scoped l l (response_json r).
Proof. unfold response_json. destruct (json r); constructor. Qed.

Lemma scoped_py_get l v key : scoped l l (py_get v key).
Proof. destruct v; constructor. Qed.

Lemma scoped_parse_handler l f e : scoped l l (parse_handler f e).
Proof.
  destruct e; simpl; repeat case_bool_decide; repeat constructor.
Qed.

Create HintDb scoped.

#[local] Hint Resolve scoped_logger scoped_client_post scoped_client_get
  scoped_raise_for_status scoped_response_json scoped_py_get
  scoped_parse_handler : scoped.

Ltac scoped_steps :=
  repeat first
    [ apply scoped_async_with
    | apply scoped_try_except
    | eapply scoped_bind
    | progress intros
    | solve [eauto with scoped lia]
    | apply scoped_ret
    | case_bool_decide ].

Lemma scoped_parse_document self f b o :
  scoped 0 0 (parse_document self f b o).
Proof. unfold parse_document. scoped_steps. Qed.

Lemma scoped_parse_document_chunk self f b o :
  scoped 0 0 (parse_document_chunk self f b o).
Proof. unfold parse_document_chunk. scoped_steps. Qed.

Lemma scoped_safe_parse_document self f o :
  scoped 0 0 (_safe_parse_document self f o).
Proof.
  unfold _safe_parse_document. apply scoped_try_except.
  - apply scoped_parse_document.
  - scoped_steps.
Qed.

Lemma scoped_check_health self : scoped 0 0 (check_health self).
Proof. unfold check_health. scoped_steps. Qed.

Lemma scoped_get_server_info self : scoped 0 0 (get_server_info self).
Proof. unfold get_server_info. scoped_steps. Qed.

Lemma scoped_program_of self cl : scoped 0 0 (program_of self cl).
Proof.
  destruct cl; simpl.
  - apply scoped_parse_document.
  - apply scoped_parse_document_chunk.
  - apply scoped_safe_parse_document.
  - apply (scoped_bind 0 0 (check_health self) (λ a, Ret (PBool a))).
    + apply scoped_check_health.
    + constructor.
  - apply scoped_get_server_info.
Qed.

Lemma scoped_batch_tasks self fs o :
  Forall (scoped 0 0) (batch_tasks self fs o).
Proof.
  unfold batch_tasks. induction fs as [|f fs IH]; constructor; [|done].
  apply scoped_safe_parse_document.
Qed.

(** ** Bookkeeping over the pool *)

Lemma isum_insert {T : Type} (f : nat → T → nat) i (l : list T) j t t' :
  l !! j = Some t →
  isum f i (<[j:=t']> l) + f (i + j) t = isum f i l + f (i + j) t'.
Proof.
  revert i j. induction l as [|x l IH]; intros i [|j] Hj; simplify_eq/=.
  - rewrite Nat.add_0_r. lia.
  - specialize (IH (S i) j Hj).
    replace (i + S j) with (S i + j) by lia. lia.
Qed.

Lemma units_held_cons {A : Type} (t : thread A) ts :
  units_held (t :: ts) = held t + units_held ts.
Proof. reflexivity. Qed.

Lemma units_held_insert {A : Type} (ts : list (thread A)) i t t' :
  ts !! i = Some t →
  units_held (<[i:=t']> ts) + held t = units_held ts + held t'.
Proof.
  revert i.
  induction ts as [|x ts IH]; intros [|i] Hi; simplify_eq/=;
    rewrite !units_held_cons; [lia|].
  specialize (IH i Hi). lia.
Qed.

Lemma units_held_app {A : Type} (ts ts' : list (thread A)) :
  units_held (ts ++ ts') = units_held ts + units_held ts'.
Proof.
  induction ts as [|t ts IH]; [done|].
  simpl. rewrite !units_held_cons, IH. lia.
Qed.

Lemma units_held_spawn {A : Type} (ps : list (prog A)) :
  units_held (spawn <$> ps) = 0.
Proof.
  induction ps as [|p ps IH]; [done|].
  rewrite fmap_cons, units_held_cons, IH. done.
Qed.

Lemma units_held_positive {A : Type} (ts : list (thread A)) :
  0 < units_held ts → ∃ j t, ts !! j = Some t ∧ 0 < held t.
Proof.
  induction ts as [|x ts IH]; [unfold units_held; simpl; lia|].
  rewrite units_held_cons. intros H.
  destruct (decide (0 < held x)) as [Hx|Hx].
  - by exists 0, x.
  - destruct IH as (j & t & Hj & Ht); [lia|]. by exists (S j), t.
Qed.

Lemma in_flight_le_units_held {A : Type} (ts : list (thread A)) :
  Forall thread_ok ts →
  length (filter (λ t, awaiting_post t = true) ts) ≤ units_held ts.
Proof.
  induction 1 as [|t ts Ht Hts IH]; [done|].
  rewrite filter_cons, units_held_cons.
  case_decide as Hp; simpl; [|lia].
  unfold awaiting_post, thread_ok in *.
  destruct (code t) as [p|rq k]; [done|].
  destruct Ht as [Hpos _]. destruct (req_method rq); [|done].
  specialize (Hpos eq_refl). lia.
Qed.

Lemma finished_holds_nothing {A : Type} (t : thread A) :
  thread_ok t → finished t → held t = 0.
Proof.
  unfold thread_ok, finished, result_of. intros Hok [o Ho].
  destruct (code t) as [[]|]; simplify_eq; by inversion Hok.
Qed.

Lemma units_held_finished {A : Type} (ts : list (thread A)) :
  Forall thread_ok ts → Forall finished ts → units_held ts = 0.
Proof.
  induction 1 as [|t ts Ht Hts IH]; [done|].
  intros [Hf Hfs]%Forall_cons. rewrite units_held_cons.
  rewrite (finished_holds_nothing t Ht Hf). by rewrite IH.
Qed.

(** ** Every step keeps the invariant *)

Lemma pool_inv_insert {A : Type} K c c' (ts : list (thread A)) i t t' :
  pool_inv K (mkPool c ts) →
  ts !! i = Some t →
  thread_ok t' →
  (semaphore c' + Z.of_nat (held t') = semaphore c + Z.of_nat (held t))%Z →
  (0 ≤ semaphore c')%Z →
  pool_inv K (mkPool c' (<[i:=t']> ts)).
Proof.
  intros (Hok & Hsum & Hpos) Hi Ht' Hbal Hpos'. simpl in *.
  pose proof (units_held_insert ts i t t' Hi) as Hins.
  split; [by apply Forall_insert|]. simpl. lia.
Qed.

Lemma step_pool_inv {A : Type} net K (s s' : pool A) :
  pool_inv K s → step net s s' → pool_inv K s'.
Proof.
  intros Hinv Hstep.
  destruct Hstep as [c ts i k h Hi Hfree|c ts i k h Hi|c ts i lvl msg k h Hi
                    |c ts i rq k h Hi|c ts i rq k h Hi];
    pose proof (Forall_lookup_1 _ _ _ _ (proj1 Hinv) Hi) as Ht;
    pose proof (proj2 (proj2 Hinv)) as Hpos;
    unfold thread_ok in Ht; simpl in Ht, Hpos;
    eapply pool_inv_insert; try exact Hinv; try exact Hi; simpl.
  - inversion Ht; subst. by unfold thread_ok.
  - lia.
  - lia.
  - inversion Ht; subst. by unfold thread_ok.
  - inversion Ht; subst. simpl. lia.
  - lia.
  - inversion Ht; subst. by unfold thread_ok.
  - lia.
  - done.
  - inversion Ht; subst. by unfold thread_ok.
  - lia.
  - done.
  - destruct Ht as [Hm Hk]. unfold thread_ok. simpl. apply Hk.
  - lia.
  - done.
Qed.

Lemma step_config {A : Type} net (s s' : pool A) :
  step net s s' →
  base_url (client s') = base_url (client s) ∧
  timeout (client s') = timeout (client s).
Proof. by destruct 1. Qed.

Lemma arrive_pool_inv K s s' : pool_inv K s → arrive s s' → pool_inv K s'.
Proof.
  intros (Hok & Hsum & Hpos) Harr.
  destruct Harr as [c ts cl|c ts fs o]; simpl in *.
  - split; [|simpl; rewrite units_held_app; unfold units_held at 2;
             simpl; lia].
    apply Forall_app. split; [done|]. apply Forall_singleton.
    unfold thread_ok. simpl. apply scoped_program_of.
  - split; [|simpl; rewrite units_held_app, units_held_spawn; lia].
    apply Forall_app. split; [done|].
    pose proof (scoped_batch_tasks c fs o) as Hb.
    induction Hb; constructor; done.
Qed.

Lemma arrive_config s s' : arrive s s' → client s' = client s.
Proof. by destruct 1. Qed.

Lemma init_pool_inv {A : Type} base tmo k c :
  __init__ base tmo k = Returned c →
  base_url c = base ∧ timeout c = tmo ∧ semaphore c = k ∧
  pool_inv (A := A) k (mkPool c []).
Proof.
  unfold __init__, Semaphore. case_bool_decide; [done|].
  intros [= <-]. split; [done|]. split; [done|]. split; [done|].
  split; [constructor|]. simpl. unfold units_held. simpl. lia.
Qed.

Lemma lifetime_pool_inv net K s s' :
  pool_inv K s → rtc (lifetime net) s s' →
  pool_inv K s' ∧
  base_url (client s') = base_url (client s) ∧
  timeout (client s') = timeout (client s).
Proof.
  intros Hinv Hrtc. induction Hrtc as [s|s s1 s2 [Hs|Ha] Hrtc IH]; [done|..].
  - destruct (IH (step_pool_inv _ _ _ _ Hinv Hs)) as (? & -> & ->).
    by destruct (step_config _ _ _ Hs).
  - destruct (IH (arrive_pool_inv _ _ _ Hinv Ha)) as (? & -> & ->).
    by rewrite (arrive_config _ _ Ha).
Qed.

(** ** The limiter bounds the requests in flight *)

(** C1: on a client built with [max_concurrent = k], however many calls
    arrive and however they are interleaved, the number of parse requests
    sent and not yet answered never exceeds [k].  Each parse coroutine
    acquires one unit before it posts, and ends, by return or by exception,
    with the unit released: free units plus held units always add up to
    [k]. *)
Theorem in_flight_bounded base tmo k c net s :
  __init__ base tmo k = Returned c →
  rtc (lifetime net) (mkPool c []) s →
  (Z.of_nat (in_flight s) ≤ k)%Z ∧
  (semaphore (client s) + Z.of_nat (units_held (threads s)) = k)%Z ∧
  Forall thread_ok (threads s) ∧
  (∀ f b o, scoped 0 0 (parse_document c f b o) ∧
            scoped 0 0 (parse_document_chunk c f b o)).
Proof.
  intros Hinit Hreach.
  destruct (init_pool_inv (A := pyval) _ _ _ _ Hinit) as (_ & _ & _ & Hinv).
  destruct (lifetime_pool_inv _ _ _ _ Hinv Hreach)
    as ((Hok & Hsum & Hpos) & _ & _).
  pose proof (in_flight_le_units_held _ Hok) as Hle.
  unfold in_flight. split; [lia|]. split; [done|]. split; [done|].
  intros f b o. split.
  - apply scoped_parse_document.
  - apply scoped_parse_document_chunk.
Qed.

(** C9: the configuration given at construction stays: after any sequence
    of calls and steps [base_url] and [timeout] are the constructor's
    arguments and the limiter's capacity (free plus held units) is
    [max_concurrent]; once every call has finished the client object is
    again exactly the object that was constructed. *)
Theorem configuration_fixed base tmo k c net s :
  __init__ base tmo k = Returned c →
  rtc (lifetime net) (mkPool c []) s →
  base_url (client s) = base ∧
  timeout (client s) = tmo ∧
  (semaphore (client s) + Z.of_nat (units_held (threads s)) = k)%Z ∧
  (Forall finished (threads s) → client s = c).
Proof.
  intros Hinit Hreach.
  destruct (init_pool_inv (A := pyval) _ _ _ _ Hinit)
    as (Hb & Ht & Hk & Hinv).
  destruct (lifetime_pool_inv _ _ _ _ Hinv Hreach)
    as ((Hok & Hsum & Hpos) & Hb' & Ht').
  simpl in Hb', Ht'. split; [congruence|]. split; [congruence|].
  split; [done|]. intros Hfin.
  rewrite (units_held_finished _ Hok Hfin) in Hsum.
  destruct (client s) as [b' t' v'], c as [b0 t0 v0]; simpl in *.
  f_equal; [done..|lia].
Qed.

(** ** The scheduler function and the step relation agree *)

Lemma step_thread_sound {A : Type} net i (s s' : pool A) :
  step_thread net i s = Some s' → step net s s'.
Proof.
  destruct s as [c ts]. unfold step_thread. simpl.
  destruct (ts !! i) as [[[p|rq k] h]|] eqn:Hi; [| |done].
  - destruct p as [a|e|k|k|rq k|lvl msg k]; try done.
    + case_bool_decide; [|done]. intros [= <-]. by eapply step_acquire.
    + intros [= <-]. by eapply step_release.
    + intros [= <-]. by eapply step_send.
    + intros [= <-]. by eapply step_log.
  - intros [= <-]. by eapply step_recv.
Qed.

Lemma step_thread_complete {A : Type} net (s s' : pool A) :
  step net s s' → ∃ i, step_thread net i s = Some s'.
Proof.
  destruct 1 as [c ts i k h Hi Hfree|c ts i k h Hi|c ts i lvl msg k h Hi
                |c ts i rq k h Hi|c ts i rq k h Hi];
    exists i; unfold step_thread; simpl; rewrite Hi; try done.
  by rewrite bool_decide_eq_true_2.
Qed.

Lemma schedule_reach {A : Type} net picks (s : pool A) :
  rtc (step net) s (schedule net picks s).
Proof.
  revert s. induction picks as [|i picks IH]; intros s; simpl; [done|].
  destruct (step_thread net i s) as [s'|] eqn:Hs; simpl; [|apply IH].
  eapply rtc_l; [by apply step_thread_sound in Hs|apply IH].
Qed.

Lemma step_lifetime net s s' : rtc (step net) s s' → rtc (lifetime net) s s'.
Proof. apply rtc_subrel. intros ???. by left. Qed.

Lemma example_state_reachable :
  rtc (lifetime example_net) (mkPool single_slot_client []) example_state.
Proof.
  eapply rtc_l.
  - right. apply (arrive_batch _ [] ["a.pdf"; "b.pdf"] None).
  - apply step_lifetime, schedule_reach.
Qed.

Lemma example_final_reachable :
  rtc (lifetime example_net) (mkPool single_slot_client []) example_final.
Proof.
  eapply rtc_l.
  - right. apply (arrive_batch _ [] ["a.pdf"; "b.pdf"] None).
  - apply step_lifetime, schedule_reach.
Qed.

Lemma in_flight_bounded_witness :
  in_flight example_state = 1 ∧
  (Z.of_nat (in_flight example_state) ≤ 1)%Z.
Proof.
  split; [reflexivity|].
  apply (in_flight_bounded "http://xparser:8000" 300 1 single_slot_client
           example_net example_state);
    [reflexivity|apply example_state_reachable].
Defined.

Lemma configuration_fixed_witness :
  Forall finished (threads example_final) ∧
  client example_final = single_slot_client.
Proof.
  assert (Hfin : Forall finished (threads example_final)).
  { repeat constructor; eexists; reflexivity. }
  split; [exact Hfin|].
  apply (configuration_fixed "http://xparser:8000" 300 1 single_slot_client
           example_net example_final);
    [reflexivity|apply example_final_reachable|exact Hfin].
Defined.

(** ** A closed pool runs to completion, and to one result *)

Section ClosedPool.
Context {A : Type} (net : nat → request → reply).

Lemma can_move c (ts : list (thread A)) i t :
  ts !! i = Some t →
  match code t with
  | Run (Ret _) | Run (Raise _) => False
  | Run (Acquire _) => (0 < semaphore c)%Z
  | _ => True
  end →
  ∃ s', step net (mkPool c ts) s'.
Proof.
  destruct t as [[p|rq k] h]; simpl.
  - destruct p as [a|e|k|k|rq k|lvl msg k]; intros Hi Hc; try done;
      eexists.
    + by eapply step_acquire.
    + by eapply step_release.
    + by eapply step_send.
    + by eapply step_log.
  - intros Hi _. eexists. by eapply step_recv.
Qed.

(** No deadlock: with at least one unit in the limiter, a pool with an
    unfinished coroutine can take a step. *)
Lemma step_progress K (s : pool A) :
  (0 < K)%Z → pool_inv K s → ¬ Forall finished (threads s) →
  ∃ s', step net s s'.
Proof.
  destruct s as [c ts]. intros HK (Hok & Hsum & Hpos) Hnf. simpl in *.
  apply not_Forall_Exists in Hnf; [|apply _].
  apply Exists_exists in Hnf as (t & [i Hi]%list_elem_of_lookup & Ht).
  simpl in Ht.
  destruct (decide (0 < semaphore c)%Z) as [Hfree|Hfull].
  - apply (can_move c ts i t Hi).
    unfold finished, result_of in Ht.
    destruct (code t) as [[]|]; try done; exfalso; apply Ht; eauto.
  - destruct (units_held_positive ts) as (j & tj & Hj & Hh); [lia|].
    apply (can_move c ts j tj Hj).
    pose proof (Forall_lookup_1 _ _ _ _ Hok Hj) as Hokj.
    unfold thread_ok in Hokj.
    destruct (code tj) as [p|rq k]; [|done].
    inversion Hokj; subst; try done; lia.
Qed.

Lemma step_cost (s s' : pool A) :
  step net s s' → pool_cost net (threads s') < pool_cost net (threads s).
Proof.
  unfold pool_cost.
  destruct 1 as [c ts i k h Hi Hfree|c ts i k h Hi|c ts i lvl msg k h Hi
                |c ts i rq k h Hi|c ts i rq k h Hi]; simpl;
    match goal with
    | |- isum ?f 0 (<[i:=?t']> ts) < _ =>
        pose proof (isum_insert f 0 ts i _ t' Hi) as Hins
    end;
    unfold thread_cost in *; simpl in *; lia.
Qed.

Lemma pool_terminates K n (s : pool A) :
  (0 < K)%Z → pool_cost net (threads s) ≤ n → pool_inv K s →
  ∃ s', rtc (step net) s s' ∧ Forall finished (threads s') ∧ pool_inv K s'.
Proof.
  intros HK. revert s. induction n as [|n IH]; intros s Hn Hinv;
    (destruct (decide (Forall finished (threads s))) as [Hf|Hf];
     [by exists s|]);
    destruct (step_progress K s HK Hinv Hf) as [s1 Hs1];
    pose proof (step_cost _ _ Hs1) as Hlt; [lia|].
  destruct (IH s1) as (s' & Hrtc & Hfin & Hinv');
    [lia|by eapply step_pool_inv|].
  exists s'. split; [by eapply rtc_l|done].
Qed.

Lemma imap_insert_same {T U : Type} (f : nat → T → U) (l : list T) i t t' :
  l !! i = Some t → f i t' = f i t → imap f (<[i:=t']> l) = imap f l.
Proof.
  intros Hi Hf. apply list_eq. intros j. rewrite !list_lookup_imap.
  destruct (decide (i = j)) as [<-|Hne].
  - rewrite list_lookup_insert_eq by (by eapply lookup_lt_Some).
    rewrite Hi. simpl. by rewrite Hf.
  - by rewrite list_lookup_insert_ne.
Qed.

(** A step never changes the outcome any coroutine is bound for. *)
Lemma step_evals (s s' : pool A) :
  step net s s' → pool_evals net (threads s') = pool_evals net (threads s).
Proof.
  unfold pool_evals.
  destruct 1 as [c ts i k h Hi Hfree|c ts i k h Hi|c ts i lvl msg k h Hi
                |c ts i rq k h Hi|c ts i rq k h Hi]; simpl;
    by eapply imap_insert_same.
Qed.

Lemma rtc_step_evals (s s' : pool A) :
  rtc (step net) s s' →
  pool_evals net (threads s') = pool_evals net (threads s).
Proof.
  induction 1 as [|s s1 s2 Hs _ IH]; [done|].
  by rewrite IH, (step_evals _ _ Hs).
Qed.

Lemma result_of_eval nt (t : thread A) o :
  result_of t = Some o → thread_eval nt t = o.
Proof.
  unfold result_of, thread_eval.
  destruct (code t) as [[]|]; intros; by simplify_eq.
Qed.

Lemma results_are_evals (ts : list (thread A)) results :
  Forall2 (λ t o, result_of t = Some o) ts results →
  results = pool_evals net ts.
Proof.
  intros H. apply list_eq. intros i. unfold pool_evals.
  rewrite list_lookup_imap.
  destruct (ts !! i) as [t|] eqn:Ht; simpl.
  - destruct (Forall2_lookup_l _ _ _ _ _ H Ht) as (o & -> & Ho).
    by rewrite (result_of_eval (net i) t o Ho).
  - apply lookup_ge_None. rewrite <-(Forall2_length _ _ _ H).
    by apply lookup_ge_None.
Qed.

Lemma finished_results (ts : list (thread A)) :
  Forall finished ts →
  Forall2 (λ t o, result_of t = Some o) ts (pool_evals net ts).
Proof.
  intros Hf. apply Forall2_same_length_lookup_2.
  - unfold pool_evals. by rewrite length_imap.
  - intros i t o Ht. unfold pool_evals. rewrite list_lookup_imap, Ht.
    intros [= <-].
    destruct (Forall_lookup_1 _ _ _ _ Hf Ht) as [o Ho].
    by rewrite (result_of_eval _ _ _ Ho).
Qed.

Lemma pool_evals_spawn (ps : list (prog A)) :
  pool_evals net (spawn <$> ps) = imap (λ i p, eval (net i) p) ps.
Proof. unfold pool_evals. by rewrite imap_fmap. Qed.

(** What [gather] yields is fixed by the tasks and the transport alone. *)
Lemma gather_unique c (tasks : list (prog A)) results c' :
  gather net c tasks results c' →
  results = imap (λ i p, eval (net i) p) tasks.
Proof.
  intros (ts' & Hrtc & Hres).
  rewrite (results_are_evals _ _ Hres), <-pool_evals_spawn.
  exact (rtc_step_evals _ _ Hrtc).
Qed.

(** And [gather] does return when the tasks keep the limiter discipline
    and the limiter has a unit; the client is then as before. *)
Lemma gather_total c (tasks : list (prog A)) :
  (0 < semaphore c)%Z → Forall (scoped 0 0) tasks →
  ∃ results, gather net c tasks results c.
Proof.
  intros Hfree Hsc.
  assert (Hinv : pool_inv (semaphore c) (mkPool c (spawn <$> tasks))).
  { split; [|simpl; rewrite units_held_spawn; lia].
    simpl. induction Hsc; constructor; done. }
  destruct (pool_terminates (semaphore c) _ _ Hfree (le_n _) Hinv)
    as ([c' ts'] & Hrtc & Hfin & Hinv').
  exists (pool_evals net ts'), ts'. simpl in *.
  split; [|by apply finished_results].
  assert (c' = c) as <-; [|done].
  destruct Hinv' as (Hok & Hsum & _). simpl in *.
  rewrite (units_held_finished _ Hok Hfin) in Hsum.
  assert (Hcfg : base_url c' = base_url c ∧ timeout c' = timeout c).
  { clear -Hrtc. 
    remember (mkPool c (spawn <$> tasks)) as s eqn:Es.
    remember (mkPool c' ts') as s' eqn:Es'.
    assert (base_url (client s') = base_url (client s) ∧
            timeout (client s') = timeout (client s)) as Hc.
    { clear Es Es'. induction Hrtc as [|s s1 s2 Hs _ IH]; [done|].
      destruct (step_config _ _ _ Hs) as [<- <-]. done. }
    by subst. }
  destruct Hcfg as [Hb Ht].
  destruct c as [b0 t0 v0], c' as [b' t' v']; simpl in *.
  f_equal; [done..|lia].
Qed.

End ClosedPool.

(** ** Batch parsing *)

Lemma run_local_bind {A B : Type} (p : prog A) (f : A → prog B) :
  run_local (p ≫= f) =
    match run_local p with
    | Some (Returned a) => run_local (f a)
    | Some (Raised e) => Some (Raised e)
    | None => None
    end.
Proof.
  unfold mbind, prog_bind.
  induction p as [a|e|k IH|k IH|rq k IH|lvl msg k IH]; simpl; auto.
Qed.

Lemma run_local_batch_loop fs results : ∀ i acc n,
  ∃ n', run_local (batch_loop fs i results acc n)
          = Some (Returned (acc ++ (collapse <$> results), n')).
Proof.
  induction results as [|[v|e] results IH]; intros i acc n; simpl.
  - exists n. by rewrite app_nil_r.
  - destruct (IH (S i) (acc ++ [v]) (S n)) as [n' ->].
    exists n'. by rewrite <-app_assoc.
  - destruct (IH (S i) (acc ++ [PNone]) n) as [n' ->].
    exists n'. by rewrite <-app_assoc.
Qed.

Lemma run_local_batch_finish fs results :
  run_local (batch_finish fs results) = Some (Returned (collapse <$> results)).
Proof.
  unfold batch_finish. rewrite run_local_bind.
  destruct (run_local_batch_loop fs results 0 [] 0) as [n' ->]. done.
Qed.

Lemma batch_tasks_evals net self fs o :
  collapse <$> imap (λ i p, eval (net i) p) (batch_tasks self fs o)
    = imap (expected_entry net self o) fs.
Proof.
  unfold batch_tasks. rewrite imap_fmap, fmap_imap.
  apply imap_ext. intros i f _. unfold compose. cbv beta.
  rewrite eval_safe_parse_document. unfold expected_entry.
  by destruct (eval (net i) (parse_document self f PNone o)).
Qed.

Lemma batch_parse_documents_result net self fs o res c' :
  batch_parse_documents net self fs o res c' →
  res = imap (expected_entry net self o) fs.
Proof.
  intros (results & _ & Hg & Hfin).
  rewrite run_local_batch_finish in Hfin. simplify_eq.
  rewrite (gather_unique _ _ _ _ _ Hg). apply batch_tasks_evals.
Qed.

Lemma null_gather :
  gather null_net single_slot_client
    (batch_tasks single_slot_client ["a.pdf"] None)
    [Returned PNone] (client null_final).
Proof.
  exists (threads null_final). split.
  - exact (schedule_reach null_net (replicate 8 0)
             (mkPool single_slot_client
                (spawn <$> batch_tasks single_slot_client ["a.pdf"] None))).
  - repeat constructor.
Qed.

(** C3 as stated fails: when the service answers 200 with the JSON body
    [null], the call for the file succeeds (it returns, it does not raise),
    and the batch holds [None] at its position all the same. *)
Lemma null_result_without_failure :
  batch_parse_documents null_net single_slot_client ["a.pdf"] None
    [PNone] (client null_final) ∧
  eval (null_net 0) (parse_document single_slot_client "a.pdf" PNone None)
    = Returned PNone ∧
  ¬ ([PNone] !! 0 = Some PNone ↔
     ∃ e, eval (null_net 0)
            (parse_document single_slot_client "a.pdf" PNone None)
          = Raised e).
Proof.
  split; [|split].
  - exists [Returned PNone].
    split; [reflexivity|]. split; [apply null_gather|reflexivity].
  - reflexivity.
  - intros [H _]. destruct (H eq_refl) as [e He]. discriminate He.
Qed.

(** C3, amended: [batch_parse_documents] returns once every task has
    finished, whatever the order in which they run and finish and whichever
    of them fail; the list returned has the length of the input, and
    position [i] holds what [parse_document] returned for
    [saved_filenames[i]] when that call succeeded and [None] when it
    raised.  An entry is [None] exactly when its call raised or returned
    [None] itself; so where successful parses yield non-[None] values, the
    [None] entries are exactly the failed positions. *)
Theorem batch_results_aligned net self fs o :
  ((0 < semaphore self)%Z →
     ∃ res, batch_parse_documents net self fs o res self) ∧
  (∀ res c', batch_parse_documents net self fs o res c' →
     length res = length fs ∧
     ∀ i f, fs !! i = Some f →
       res !! i = Some (expected_entry net self o i f) ∧
       (∀ v, eval (net i) (parse_document self f PNone o) = Returned v →
             res !! i = Some v) ∧
       (∀ e, eval (net i) (parse_document self f PNone o) = Raised e →
             res !! i = Some PNone) ∧
       ((∀ v, eval (net i) (parse_document self f PNone o) = Returned v →
              v ≠ PNone) →
        (res !! i = Some PNone ↔
           ∃ e, eval (net i) (parse_document self f PNone o) = Raised e)) ∧
       (res !! i = Some PNone ↔
          (∃ e, eval (net i) (parse_document self f PNone o) = Raised e) ∨
          eval (net i) (parse_document self f PNone o) = Returned PNone)).
Proof.
  split.
  - intros Hfree.
    destruct (gather_total net self (batch_tasks self fs o) Hfree
                (scoped_batch_tasks self fs o)) as [results Hg].
    exists (collapse <$> results), results.
    split; [done|]. split; [done|]. apply run_local_batch_finish.
  - intros res c' ->%batch_parse_documents_result.
    split; [by rewrite length_imap|].
    intros i f Hf. rewrite list_lookup_imap, Hf.
    cbn [fmap option_fmap option_map]. unfold expected_entry.
    destruct (eval (net i) (parse_document self f PNone o)) as [v|e].
    + split; [done|]. split; [intros ? [= ->]; done|]. split; [done|].
      split.
      * intros Hv. split.
        -- intros [= ->]. by destruct (Hv PNone).
        -- by intros [e He].
      * split; [intros [= ->]; by right|]. by intros [[e He]|[= ->]].
    + split; [done|]. split; [done|]. split; [done|].
      split; [intros _; split; eauto|]. split; [eauto|done].
Qed.

Lemma batch_results_aligned_witness :
  ∃ res, batch_parse_documents example_net example_client
           ["a.pdf"; "b.pdf"; "c.pdf"] None res example_client ∧
         res = [PDict ∅; PNone; PDict ∅].
Proof.
  destruct (proj1 (batch_results_aligned example_net example_client
                     ["a.pdf"; "b.pdf"; "c.pdf"] None)) as [res Hres].
  - reflexivity.
  - exists res. split; [exact Hres|].
    destruct (proj2 (batch_results_aligned example_net example_client
                       ["a.pdf"; "b.pdf"; "c.pdf"] None) res _ Hres)
      as [Hlen Hat].
    destruct (Hat 0 "a.pdf" eq_refl) as (H0 & _).
    destruct (Hat 1 "b.pdf" eq_refl) as (H1 & _).
    destruct (Hat 2 "c.pdf" eq_refl) as (H2 & _).
    destruct res as [|r0 [|r1 [|r2 [|]]]]; try discriminate Hlen.
    injection H0 as ->. injection H1 as ->. injection H2 as ->.
    reflexivity.
Defined.

(** * Further properties *)

(** ** Server information *)

Lemma eval_get_server_info net self :
  eval net (get_server_info self) =
    Returned
      match net (health_request self) with
      | Responded r =>
          if is_success (status_code r) then default PNone (json r)
          else PNone
      | Failed _ => PNone
      end.
Proof.
  unfold get_server_info, health_request. rewrite eval_try_except. simpl.
  destruct (net _) as [r|e]; simpl; [|done].
  unfold raise_for_status, response_json.
  destruct (is_success _); simpl; [|done].
  by destruct (json r).
Qed.

Lemma http_requests_get_server_info net self :
  http_requests net (get_server_info self) = [health_request self].
Proof.
  unfold get_server_info, health_request.
  rewrite http_requests_try_except. simpl.
  destruct (net _) as [r|e]; simpl; [|done].
  unfold raise_for_status, response_json.
  destruct (is_success _); simpl; [|done]. by destruct (json r).
Qed.

Lemma http_requests_check_health net self :
  http_requests net (check_health self) = [health_request self].
Proof.
  unfold check_health, health_request.
  rewrite http_requests_try_except. simpl.
  destruct (net _) as [r|e]; simpl; [|done].
  case_bool_decide; simpl; [|done].
  unfold response_json. destruct (json r) as [[]|]; simpl; done.
Qed.

(** X1: [get_server_info] never raises and sends one GET to
    [base_url/health] with a 10 second timeout; it returns the decoded body
    when the answer is 2xx and decodes, and [None] in every other case
    (transport failure, non-2xx, undecodable body). *)
Theorem get_server_info_never_raises net self :
  ∃ v, eval net (get_server_info self) = Returned v ∧
       http_requests net (get_server_info self)
         = [mkRequest GET 10 (base_url self +:+ "/health") None] ∧
       (∀ r body, net (health_request self) = Responded r →
                  is_success (status_code r) = true →
                  json r = Some body → v = body) ∧
       ((∀ r, net (health_request self) = Responded r →
              is_success (status_code r) = true → json r = None) →
        v = PNone).
Proof.
  eexists. split; [apply eval_get_server_info|].
  split; [apply http_requests_get_server_info|]. split.
  - intros r body -> -> ->. done.
  - intros H. destruct (net _) as [r|e]; [|done].
    destruct (is_success _) eqn:Hs; [|done]. by rewrite (H r eq_refl Hs).
Qed.

Lemma get_server_info_never_raises_witness :
  eval (λ _, Responded (mkResponse 204 "{}" (Some (PDict ∅))))
       (get_server_info example_client) = Returned (PDict ∅).
Proof.
  destruct (get_server_info_never_raises
              (λ _, Responded (mkResponse 204 "{}" (Some (PDict ∅))))
              example_client) as (v & Hv & _ & Hok & _).
  rewrite Hv. f_equal. by apply (Hok _ _ eq_refl).
Defined.

(** X2: whenever [check_health] answers [True], [get_server_info] on the
    same transport returns a mapping whose [status] is ["healthy"]; both
    probes send the same request. *)
Theorem healthy_server_has_info net self :
  eval net (check_health self) = Returned true →
  (∃ d, eval net (get_server_info self) = Returned (PDict d) ∧
        d !! "status" = Some (PStr "healthy")) ∧
  http_requests net (check_health self)
    = http_requests net (get_server_info self).
Proof.
  rewrite eval_check_health, eval_get_server_info,
    http_requests_check_health, http_requests_get_server_info.
  intros [= Hh]. split; [|done].
  destruct (net _) as [r|e]; [|done].
  case_bool_decide as Hs; [|done].
  unfold is_success. rewrite Hs. simpl.
  destruct (json r) as [[| | | | |d]|]; try done.
  exists d. split; [done|].
  destruct (d !! "status") as [[| | |s| |]|]; simpl in Hh; try done.
  by apply bool_decide_eq_true_1 in Hh as ->.
Qed.

Lemma healthy_server_has_info_witness :
  let net := λ _ : request,
    Responded (mkResponse 200 "{...}"
                 (Some (PDict {[ "status" := PStr "healthy" ]}))) in
  ∃ d, eval net (get_server_info example_client) = Returned (PDict d) ∧
       d !! "status" = Some (PStr "healthy").
Proof.
  intros net.
  apply (healthy_server_has_info net example_client). reflexivity.
Defined.

(** ** Success and transport failure of the parse coroutines *)

(** X3: on a 2xx answer both parse coroutines return exactly the decoded
    body, whatever 2xx status it is; when the body does not decode they
    raise the decode error. *)
Theorem parse_success_returns_body self f b o r p :
  p ∈ both_parsers self f b o →
  is_success (status_code r) = true →
  (∀ v, json r = Some v → eval (λ _, Responded r) p = Returned v) ∧
  (json r = None →
     eval (λ _, Responded r) p = Raised (JSONDecodeError (text r))).
Proof.
  intros Hp Hs.
  destruct (eval_parsers (λ _, Responded r) _ _ _ _ _ Hp) as (rq & _ & ->).
  rewrite Hs. split.
  - by intros v ->.
  - by intros ->.
Qed.

Lemma parse_success_returns_body_witness :
  eval (λ _, Responded (mkResponse 201 "{}" (Some (PDict ∅))))
       (parse_document example_client "doc.pdf" default_bucket_name None)
    = Returned (PDict ∅).
Proof.
  apply (parse_success_returns_body example_client "doc.pdf"
           default_bucket_name None
           (mkResponse 201 "{}" (Some (PDict ∅)))).
  - unfold both_parsers. apply list_elem_of_here.
  - reflexivity.
  - reflexivity.
Defined.

(** X4: an exception of the transport (anything but an HTTP status error)
    comes out of both parse coroutines unchanged. *)
Theorem parse_transport_failure_propagates net self f b o e p :
  p ∈ both_parsers self f b o →
  (∀ rq, net rq = Failed e) →
  (∀ r, e ≠ HTTPStatusError r) →
  eval net p = Raised e.
Proof.
  intros Hp Hnet He.
  destruct (eval_parsers net _ _ _ _ _ Hp) as (rq & _ & ->).
  rewrite Hnet. destruct e; simpl; try done. by destruct (He response).
Qed.

Lemma parse_transport_failure_propagates_witness :
  eval (λ _, Failed (TransportError "connect timeout"))
       (parse_document_chunk example_client "doc.pdf" default_bucket_name
          None)
    = Raised (TransportError "connect timeout").
Proof.
  apply (parse_transport_failure_propagates _ example_client "doc.pdf"
           default_bucket_name None).
  - unfold both_parsers. apply list_elem_of_further, list_elem_of_here.
  - reflexivity.
  - discriminate.
Defined.

(** X5: towards the same answer of the service the two parse coroutines
    end alike, whatever options and bucket were given. *)
Theorem parsers_agree_on_reply self f b b' o o' rep :
  eval (λ _, rep) (parse_document self f b o)
    = eval (λ _, rep) (parse_document_chunk self f b' o').
Proof.
  destruct (eval_parsers (λ _, rep) self f b o (parse_document self f b o))
    as (rq & _ & ->); [apply list_elem_of_here|].
  destruct (eval_parsers (λ _, rep) self f b' o'
              (parse_document_chunk self f b' o'))
    as (rq' & _ & ->); [apply list_elem_of_further, list_elem_of_here|].
  done.
Qed.

(** X6: a [None] from [_safe_parse_document] means the wrapped call raised
    or itself returned [None]; any other value is the wrapped call's own
    return value. *)
Theorem safe_parse_none_iff net self f o :
  (eval net (_safe_parse_document self f o) = Returned PNone ↔
     (∃ e, eval net (parse_document self f PNone o) = Raised e) ∨
     eval net (parse_document self f PNone o) = Returned PNone) ∧
  (∀ v, v ≠ PNone →
     eval net (_safe_parse_document self f o) = Returned v →
     eval net (parse_document self f PNone o) = Returned v).
Proof.
  rewrite eval_safe_parse_document.
  destruct (eval net (parse_document self f PNone o)) as [v|e]; split.
  - split; [intros [= ->]; by right|]. by intros [[e He]|[= ->]].
  - by intros v' _ [= ->].
  - split; [intros _; left; eauto|done].
  - by intros v' Hv [= <-].
Qed.

(** ** What the parse requests carry *)

(** X16: the one request of either parse coroutine is sent with the
    client's [timeout]; its JSON body has exactly the keys
    [saved_filename], [bucket_name] and [options], holding the file name
    and the bucket as given and the merged options, in which every option
    the caller supplied is present with the caller's value. *)
Theorem parse_request_body net self f b o p :
  p ∈ both_parsers self f b o →
  ∃ url body opts,
    http_requests net p
      = [mkRequest POST (timeout self) url (Some (PDict body))] ∧
    dom body = ({[ "saved_filename"; "bucket_name"; "options" ]}
                  : gset string) ∧
    body !! "saved_filename" = Some (PStr f) ∧
    body !! "bucket_name" = Some b ∧
    body !! "options" = Some (PDict opts) ∧
    (∀ m k v, o = Some m → m !! k = Some v → opts !! k = Some v).
Proof.
  unfold both_parsers. rewrite !elem_of_cons, elem_of_nil.
  intros [->|[->|[]]].
  - destruct (request_body_shape f b (_build_options o)) as (Hd & Hf & Hb & Ho).
    eexists _, _, _.
    split; [apply http_requests_parse_document|].
    split; [exact Hd|]. split; [exact Hf|]. split; [exact Hb|].
    split; [exact Ho|].
    intros m k v -> Hk. rewrite build_options_some, lookup_overlay.
    by rewrite Hk.
  - destruct (request_body_shape f b (_build_options_v2 o))
      as (Hd & Hf & Hb & Ho).
    eexists _, _, _.
    split; [apply http_requests_parse_document_chunk|].
    split; [exact Hd|]. split; [exact Hf|]. split; [exact Hb|].
    split; [exact Ho|].
    intros m k v -> Hk. rewrite build_options_v2_some, lookup_overlay.
    by rewrite Hk.
Qed.

Lemma parse_request_body_witness :
  ∃ url body opts,
    http_requests (example_net 0)
      (parse_document_chunk example_client "doc.pdf" default_bucket_name
         (Some {[ "table_format" := PStr "html" ]}))
      = [mkRequest POST 300 url (Some (PDict body))] ∧
    body !! "options" = Some (PDict opts) ∧
    opts !! "table_format" = Some (PStr "html").
Proof.
  destruct (parse_request_body (example_net 0) example_client "doc.pdf"
              default_bucket_name (Some {[ "table_format" := PStr "html" ]})
              (parse_document_chunk example_client "doc.pdf"
                 default_bucket_name
                 (Some {[ "table_format" := PStr "html" ]})))
    as (url & body & opts & Hrq & _ & _ & _ & Hopts & Hsup).
  - unfold both_parsers. apply list_elem_of_further, list_elem_of_here.
  - exists url, body, opts. split; [exact Hrq|]. split; [exact Hopts|].
    apply (Hsup {[ "table_format" := PStr "html" ]}); reflexivity.
Defined.

(** ** Algebra of the option builders *)

Lemma build_options_cases o :
  (∃ m, o = Some m ∧ _build_options o = m ∪ default_options ∧
        _build_options_v2 o = m ∪ default_options_v2) ∨
  (o = None ∧ _build_options o = default_options ∧
   _build_options_v2 o = default_options_v2).
Proof.
  destruct o as [m|]; [left|by right].
  exists m. by rewrite build_options_some, build_options_v2_some.
Qed.

(** X7: the merged options always carry every default key besides the
    supplied ones, the supplied mapping is contained in the result, and
    merging is idempotent: feeding a result back in changes nothing. *)
Theorem build_options_algebra (m : gmap string pyval) :
  dom (_build_options (Some m)) = dom m ∪ dom default_options ∧
  dom (_build_options_v2 (Some m)) = dom m ∪ dom default_options_v2 ∧
  m ⊆ _build_options (Some m) ∧
  m ⊆ _build_options_v2 (Some m) ∧
  _build_options (Some (_build_options (Some m))) = _build_options (Some m) ∧
  _build_options_v2 (Some (_build_options_v2 (Some m)))
    = _build_options_v2 (Some m).
Proof.
  rewrite !build_options_some, !build_options_v2_some.
  split; [apply dom_union_L|]. split; [apply dom_union_L|].
  split; [apply map_union_subseteq_l|]. split; [apply map_union_subseteq_l|].
  split.
  - rewrite <-(assoc_L (∪)). by rewrite (idemp_L (∪) default_options).
  - rewrite <-(assoc_L (∪)). by rewrite (idemp_L (∪) default_options_v2).
Qed.

(** X8: the two presets and the builders.  The full preset merges to the
    plain defaults of [parse].  The minimal preset switches off exactly
    [use_xparser_description], [include_bbox] and [group_markers] and leaves
    [response_format] and [id_marker] at their defaults.  Both presets use
    only keys [parse] knows; on the chunk endpoint the minimal preset leaves
    [use_ai_description] switched on. *)
Theorem presets_merge :
  _build_options (Some create_full_options) = default_options ∧
  _build_options (Some create_minimal_options) =
    {[ "response_format" := PStr "layout_json";
       "include_bbox" := PBool false;
       "id_marker" := PBool true;
       "group_markers" := PBool false;
       "use_xparser_description" := PBool false ]} ∧
  dom create_full_options ⊆ dom default_options ∧
  dom create_minimal_options ⊆ dom default_options ∧
  _build_options_v2 (Some create_minimal_options) !! "use_ai_description"
    = Some (PBool true) ∧
  size (_build_options_v2 (Some create_minimal_options)) = 5.
Proof.
  split; [|split; [|split; [|split; [|split]]]].
  - rewrite build_options_some. apply map_eq. intros k.
    rewrite lookup_overlay. unfold create_full_options, default_options.
    destruct (decide (k = "use_xparser_description")) as [->|]; [done|].
    destruct (decide (k = "include_bbox")) as [->|]; [done|].
    destruct (decide (k = "id_marker")) as [->|]; [done|].
    destruct (decide (k = "group_markers")) as [->|]; [done|].
    destruct (decide (k = "response_format")) as [->|]; [done|].
    rewrite !lookup_insert_ne, !lookup_singleton_ne by done. done.
  - rewrite build_options_some. apply map_eq. intros k.
    rewrite lookup_overlay. unfold create_minimal_options, default_options.
    destruct (decide (k = "use_xparser_description")) as [->|]; [done|].
    destruct (decide (k = "include_bbox")) as [->|]; [done|].
    destruct (decide (k = "group_markers")) as [->|]; [done|].
    destruct (decide (k = "response_format")) as [->|]; [done|].
    destruct (decide (k = "id_marker")) as [->|]; [done|].
    rewrite !lookup_insert_ne, !lookup_singleton_ne by done. done.
  - unfold create_full_options, default_options. set_solver.
  - unfold create_minimal_options, default_options. set_solver.
  - reflexivity.
  - reflexivity.
Qed.

(** ** The limiter over whole runs *)


Lemma spawn_pool_inv {A : Type} c (tasks : list (prog A)) :
  (0 ≤ semaphore c)%Z → Forall (scoped 0 0) tasks →
  pool_inv (semaphore c) (mkPool c (spawn <$> tasks)).
Proof.
  intros Hpos Hsc. split; [|simpl; rewrite units_held_spawn; lia].
  simpl. induction Hsc; constructor; done.
Qed.



Lemma example_gather :
  gather example_net single_slot_client
    (batch_tasks single_slot_client ["a.pdf"; "b.pdf"] None)
    [Returned (PDict ∅); Returned PNone] (client example_final).
Proof.
  exists (threads example_final). split.
  - exact (schedule_reach example_net (replicate 8 0 ++ replicate 8 1)
             example_batch).
  - repeat constructor.
Qed.



Lemma scoped_programs c cls : Forall (scoped 0 0) (program_of c <$> cls).
Proof.
  induction cls as [|x cls IH]; [constructor|].
  rewrite fmap_cons. constructor; [apply scoped_program_of|exact IH].
Qed.

Lemma program_of_starts_with_acquire c cl :
  takes_limiter cl = true → ∃ k, program_of c cl = Acquire k.
Proof. destruct cl; simpl; try done; intros _; eexists; reflexivity. Qed.

Lemma first_waits_forever net c k (ts : list (thread pyval)) s' :
  pool_inv 0 (mkPool c (mkThread (Run (Acquire k)) 0 :: ts)) →
  rtc (step net) (mkPool c (mkThread (Run (Acquire k)) 0 :: ts)) s' →
  ∃ ts', threads s' = mkThread (Run (Acquire k)) 0 :: ts'.
Proof.
  intros Hinv Hrtc.
  remember (mkPool c (mkThread (Run (Acquire k)) 0 :: ts)) as s eqn:Es.
  revert c ts Es. induction Hrtc as [s|s s1 s2 Hs Hrtc IH]; intros c ts ->.
  { by exists ts. }
  pose proof (step_pool_inv _ _ _ _ Hinv Hs) as Hinv1.
  destruct Hinv as (_ & Hsum & Hpos). simpl in Hsum, Hpos.
  inversion Hs as [c0 ts0 i k0 h Hi Hfree|c0 ts0 i k0 h Hi
                  |c0 ts0 i lvl msg k0 h Hi|c0 ts0 i rq k0 h Hi
                  |c0 ts0 i rq k0 h Hi]; subst;
    (destruct i as [|i]; simpl in Hi;
     [simplify_eq; try lia|]);
    try (eapply IH; [exact Hinv1|simpl; reflexivity]).
Qed.

(** X10: on a client whose limiter holds no units ([max_concurrent = 0])
    no set of concurrent calls that starts with a parse, chunk or safe-parse
    call ever completes: that call waits for a unit for ever.  In particular
    a batch over a non-empty list never returns. *)
Theorem zero_limit_blocks_parsing net c cl cls results c' :
  semaphore c = 0%Z →
  takes_limiter cl = true →
  ¬ gather net c (program_of c <$> (cl :: cls)) results c'.
Proof.
  intros Hz Hcl (ts' & Hrtc & Hres).
  destruct (program_of_starts_with_acquire c cl Hcl) as [k Hk].
  rewrite !fmap_cons, Hk in Hrtc. unfold spawn at 1 in Hrtc.
  assert (Hinv : pool_inv 0
            (mkPool c (mkThread (Run (Acquire k)) 0
                       :: (spawn <$> (program_of c <$> cls))))).
  { rewrite <-Hz. rewrite <-Hk.
    apply (spawn_pool_inv c (program_of c cl :: (program_of c <$> cls)));
      [lia|].
    apply (scoped_programs c (cl :: cls)). }
  destruct (first_waits_forever _ _ _ _ _ Hinv Hrtc) as [ts1 Hts]. simpl in Hts.
  subst ts'. inversion Hres; subst. done.
Qed.

Lemma zero_limit_blocks_parsing_witness :
  ¬ ∃ results c',
      gather example_net (mkClient "http://xparser:8000" 300 0)
        (batch_tasks (mkClient "http://xparser:8000" 300 0)
           ["a.pdf"; "b.pdf"] None) results c'.
Proof.
  intros (results & c' & Hg).
  apply (zero_limit_blocks_parsing example_net
           (mkClient "http://xparser:8000" 300 0)
           (call_safe_parse_document "a.pdf" None)
           [call_safe_parse_document "b.pdf" None] results c');
    [reflexivity|reflexivity|exact Hg].
Defined.

(** ** What the batch logs *)

Lemma logged_bind {A B : Type} net (p : prog A) (f : A → prog B) :
  logged net (p ≫= f) =
    logged net p ++
    match eval net p with
    | Returned a => logged net (f a)
    | Raised _ => []
    end.
Proof.
  unfold mbind, prog_bind.
  induction p as [a|e|k IH|k IH|rq k IH|lvl msg k IH]; simpl; auto.
  by rewrite IH.
Qed.

Lemma batch_loop_all_returned net fs (vs : list pyval) : ∀ i acc n,
  logged net (batch_loop fs i (Returned <$> vs) acc n) = [] ∧
  eval net (batch_loop fs i (Returned <$> vs) acc n)
    = Returned (acc ++ vs, n + length vs).
Proof.
  induction vs as [|v vs IH]; intros i acc n.
  - simpl. by rewrite app_nil_r, Nat.add_0_r.
  - rewrite fmap_cons.
    change (batch_loop fs i (Returned v :: (Returned <$> vs)) acc n)
      with (batch_loop fs (S i) (Returned <$> vs) (acc ++ [v]) (S n)).
    destruct (IH (S i) (acc ++ [v]) (S n)) as [-> ->].
    split; [done|]. rewrite <-app_assoc. simpl. do 2 f_equal. lia.
Qed.

Lemma batch_tasks_all_return net self fs o :
  imap (λ i p, eval (net i) p) (batch_tasks self fs o)
    = Returned <$> imap (expected_entry net self o) fs.
Proof.
  unfold batch_tasks. rewrite imap_fmap, fmap_imap.
  apply imap_ext. intros i f _. unfold compose. cbv beta.
  rewrite eval_safe_parse_document. unfold expected_entry.
  by destruct (eval (net i) (parse_document self f PNone o)).
Qed.

(** X11: what [asyncio.gather] hands back to [batch_parse_documents] never
    holds an exception, so its loop logs no per-item failure and counts
    every item as a success: the closing line always reports
    [len(saved_filenames)] out of [len(saved_filenames)], also when parses
    failed. *)
Theorem batch_counts_every_item net nt self fs o results c' :
  gather net self (batch_tasks self fs o) results c' →
  Forall (λ r, ∃ v, r = Returned v) results ∧
  logged nt (batch_finish fs results) =
    [(INFO, [FLit "배치 파싱 완료: "; FNat (length fs); FLit "/";
             FNat (length fs); FLit " 성공"])].
Proof.
  intros ->%gather_unique. rewrite batch_tasks_all_return.
  split.
  - apply Forall_fmap, Forall_forall. intros v _. by exists v.
  - unfold batch_finish. rewrite logged_bind.
    destruct (batch_loop_all_returned nt fs
                (imap (expected_entry net self o) fs) 0 [] 0) as [-> ->].
    simpl. by rewrite length_imap.
Qed.

Lemma batch_counts_every_item_witness :
  logged (example_net 0)
    (batch_finish ["a.pdf"; "b.pdf"] [Returned (PDict ∅); Returned PNone]) =
    [(INFO, [FLit "배치 파싱 완료: "; FNat 2; FLit "/"; FNat 2;
             FLit " 성공"])].
Proof.
  exact (proj2 (batch_counts_every_item example_net (example_net 0)
                  single_slot_client ["a.pdf"; "b.pdf"] None
                  [Returned (PDict ∅); Returned PNone]
                  (client example_final) example_gather)).
Defined.

(** ** Probes do not pass through the limiter *)

Section Free.
Context {A B : Type}.

Lemma limiter_free_bind (p : prog A) (f : A → prog B) :
  limiter_free p → (∀ a, limiter_free (f a)) → limiter_free (p ≫= f).
Proof.
  unfold mbind, prog_bind. intros Hp Hf.
  induction Hp as [a|e|rq k Hk IH|lvl msg k Hk IH]; simpl;
    [apply Hf|constructor..]; auto.
Qed.

Lemma limiter_free_try_except (p : prog A) (h : pyexn → prog A) :
  limiter_free p → (∀ e, limiter_free (h e)) →
  limiter_free (try_except p h).
Proof.
  intros Hp Hh.
  induction Hp as [a|e|rq k Hk IH|lvl msg k Hk IH]; simpl;
    [constructor|apply Hh|constructor..]; auto.
Qed.

End Free.

Lemma limiter_free_client_get tmo url : limiter_free (client_get tmo url).
Proof. constructor. intros [r|e]; constructor. Qed.

Lemma limiter_free_check_health self : limiter_free (check_health self).
Proof.
  unfold check_health. apply limiter_free_try_except.
  - apply limiter_free_bind; [apply limiter_free_client_get|].
    intros r. case_bool_decide; [|constructor].
    apply limiter_free_bind.
    { unfold response_json. destruct (json r); constructor. }
    intros v. apply limiter_free_bind; [destruct v; constructor|].
    intros; constructor.
  - intros e. repeat constructor.
Qed.

Lemma limiter_free_get_server_info self :
  limiter_free (get_server_info self).
Proof.
  unfold get_server_info. apply limiter_free_try_except.
  - apply limiter_free_bind; [apply limiter_free_client_get|].
    intros r. apply limiter_free_bind.
    { unfold raise_for_status. destruct (is_success _); constructor. }
    intros _. unfold response_json. destruct (json r); constructor.
  - intros e. repeat constructor.
Qed.

Lemma limiter_free_program_of c cl :
  takes_limiter cl = false → limiter_free (program_of c cl).
Proof.
  destruct cl; try done; intros _; simpl.
  - apply (limiter_free_bind (check_health c) (λ a, Ret (PBool a)));
      [apply limiter_free_check_health|intros; constructor].
  - apply limiter_free_get_server_info.
Qed.

Lemma eval_fmap {A B : Type} net (f : A → B) (p : prog A) :
  eval net (f <$> p) =
    match eval net p with
    | Returned a => Returned (f a)
    | Raised e => Raised e
    end.
Proof.
  unfold fmap, prog_fmap.
  induction p as [a|e|k IH|k IH|rq k IH|lvl msg k IH]; simpl; auto.
Qed.

Lemma eval_program_of_probe nt c cl :
  takes_limiter cl = false → ∃ v, eval nt (program_of c cl) = Returned v.
Proof.
  destruct cl; try done; intros _.
  - change (program_of c call_check_health) with (PBool <$> check_health c).
    rewrite eval_fmap, eval_check_health. eauto.
  - change (program_of c call_get_server_info) with (get_server_info c).
    rewrite eval_get_server_info. eauto.
Qed.

Lemma free_step {A : Type} net (s s' : pool A) :
  Forall thread_free (threads s) → step net s s' →
  Forall thread_free (threads s') ∧ client s' = client s.
Proof.
  intros Hfree Hs.
  destruct Hs as [c ts i k h Hi Hfr|c ts i k h Hi|c ts i lvl msg k h Hi
                 |c ts i rq k h Hi|c ts i rq k h Hi]; simpl in *;
    pose proof (Forall_lookup_1 _ _ _ _ Hfree Hi) as Ht;
    unfold thread_free in Ht; simpl in Ht.
  - inversion Ht.
  - inversion Ht.
  - inversion Ht; subst. split; [|done]. by apply Forall_insert.
  - inversion Ht; subst. split; [|done]. by apply Forall_insert.
  - split; [|done]. apply Forall_insert; [done|]. apply Ht.
Qed.

Lemma free_progress {A : Type} net (s : pool A) :
  Forall thread_free (threads s) → ¬ Forall finished (threads s) →
  ∃ s', step net s s'.
Proof.
  destruct s as [c ts]. simpl. intros Hfree Hnf.
  apply not_Forall_Exists in Hnf; [|apply _].
  apply Exists_exists in Hnf as (t & [i Hi]%list_elem_of_lookup & Ht).
  simpl in Ht. apply (can_move net c ts i t Hi).
  pose proof (Forall_lookup_1 _ _ _ _ Hfree Hi) as Hf.
  unfold thread_free in Hf. unfold finished, result_of in Ht.
  destruct (code t) as [p|rq k]; [|done].
  destruct Hf; try done; exfalso; apply Ht; eauto.
Qed.

Lemma free_terminates {A : Type} net n (s : pool A) :
  pool_cost net (threads s) ≤ n → Forall thread_free (threads s) →
  ∃ s', rtc (step net) s s' ∧ Forall finished (threads s') ∧
        client s' = client s.
Proof.
  revert s. induction n as [|n IH]; intros s Hn Hfree;
    (destruct (decide (Forall finished (threads s))) as [Hf|Hf];
     [by exists s|]);
    destruct (free_progress net s Hfree Hf) as [s1 Hs1];
    pose proof (step_cost net _ _ Hs1) as Hlt; [lia|].
  destruct (free_step net _ _ Hfree Hs1) as [Hfree1 Hc1].
  destruct (IH s1) as (s' & Hrtc & Hfin & Hc); [lia|done|].
  exists s'. split; [by eapply rtc_l|]. split; [done|congruence].
Qed.

(** X12: health and server-info probes never wait for the limiter: any
    number of them, started on a client in any limiter state (also with no
    unit free), all run to completion without raising, and leave the client
    as it was. *)
Theorem probes_bypass_limiter net c cls :
  Forall (λ cl, takes_limiter cl = false) cls →
  ∃ results,
    gather net c (program_of c <$> cls) results c ∧
    length results = length cls ∧
    Forall (λ r, ∃ v, r = Returned v) results.
Proof.
  intros Hcls.
  assert (Hfree : Forall thread_free (spawn <$> (program_of c <$> cls))).
  { induction Hcls as [|cl cls Hcl _ IH]; [constructor|].
    rewrite !fmap_cons. constructor; [|exact IH].
    unfold thread_free. simpl. by apply limiter_free_program_of. }
  destruct (free_terminates net _
              (mkPool c (spawn <$> (program_of c <$> cls))) (le_n _) Hfree)
    as ([c' ts'] & Hrtc & Hfin & Hc). simpl in Hc. subst c'.
  exists (pool_evals net ts').
  assert (Hg : gather net c (program_of c <$> cls) (pool_evals net ts') c).
  { exists ts'. split; [done|]. by apply finished_results. }
  split; [exact Hg|].
  rewrite (gather_unique _ _ _ _ _ Hg). rewrite length_imap, length_fmap.
  split; [done|].
  clear -Hcls. rewrite imap_fmap.
  apply Forall_forall. intros r [i Hi]%list_elem_of_lookup.
  rewrite list_lookup_imap in Hi.
  destruct (cls !! i) as [cl|] eqn:Hcl; [|done]. simpl in Hi.
  injection Hi as <-.
  pose proof (Forall_lookup_1 _ _ _ _ Hcls Hcl) as Hf. simpl in Hf.
  exact (eval_program_of_probe (net i) c cl Hf).
Qed.

Lemma probes_bypass_limiter_witness :
  ∃ results,
    gather example_net (mkClient "http://xparser:8000" 300 0)
      [PBool <$> check_health (mkClient "http://xparser:8000" 300 0);
       get_server_info (mkClient "http://xparser:8000" 300 0)]
      results (mkClient "http://xparser:8000" 300 0) ∧
    length results = 2.
Proof.
  destruct (probes_bypass_limiter example_net
              (mkClient "http://xparser:8000" 300 0)
              [call_check_health; call_get_server_info])
    as (results & Hg & Hlen & _).
  - repeat constructor.
  - exists results. split; [exact Hg|exact Hlen].
Defined.

(** ** Any mix of calls runs to completion *)



(** ** Environment variables *)

Lemma lstrip_spec (s : pystr) :
  ∃ l, s = l ++ lstrip s ∧ Forall (λ c, isspace c = true) l ∧
       ∀ c, head (lstrip s) = Some c → isspace c = false.
Proof.
  induction s as [|a s (l & Hs & Hl & Hh)]; simpl.
  - exists []. by repeat split.
  - destruct (isspace a) eqn:Ha.
    + exists (a :: l). simpl. rewrite <-Hs. repeat split; [by constructor|done].
    + exists []. repeat split; [constructor|]. simpl. by intros c [= <-].
Qed.

Lemma lstrip_fixed (s : pystr) :
  (∀ c, head s = Some c → isspace c = false) → lstrip s = s.
Proof.
  destruct s as [|a s]; simpl; [done|]. intros H. by rewrite (H a eq_refl).
Qed.

Lemma rstrip_spec (s : pystr) :
  ∃ r, s = rstrip s ++ r ∧ Forall (λ c, isspace c = true) r ∧
       ∀ c, last (rstrip s) = Some c → isspace c = false.
Proof.
  unfold rstrip.
  destruct (lstrip_spec (reverse s)) as (l & Hs & Hl & Hh).
  exists (reverse l). split; [|split].
  - rewrite <-reverse_app, <-Hs. by rewrite reverse_involutive.
  - by apply Forall_reverse.
  - intros c. rewrite last_reverse. apply Hh.
Qed.

Lemma rstrip_fixed (s : pystr) :
  (∀ c, last s = Some c → isspace c = false) → rstrip s = s.
Proof.
  intros H. unfold rstrip. rewrite lstrip_fixed; [apply reverse_involutive|].
  intros c. rewrite head_reverse. apply H.
Qed.

Lemma strip_spec (v : pystr) :
  ∃ l r, v = l ++ strip v ++ r ∧
         Forall (λ c, isspace c = true) l ∧
         Forall (λ c, isspace c = true) r ∧
         (∀ c, head (strip v) = Some c → isspace c = false) ∧
         (∀ c, last (strip v) = Some c → isspace c = false).
Proof.
  unfold strip.
  destruct (lstrip_spec v) as (l & Hv & Hl & Hh).
  destruct (rstrip_spec (lstrip v)) as (r & Hr & Hrs & Hlast).
  exists l, r. split; [by rewrite <-Hr|]. split; [done|]. split; [done|].
  split; [|done].
  intros c Hc. apply Hh. rewrite Hr.
  destruct (rstrip (lstrip v)); [done|]. exact Hc.
Qed.

Example strip_example :
  strip [32; 9; 98; 111; 32; 108; 116; 13; 10]%N = [98; 111; 32; 108; 116]%N.
Proof. reflexivity. Qed.

(** X14: [get_env_variable] raises [ValueError], naming the variable, when
    and only when the variable is not set; when it is set, also to an empty
    or blank string, it returns the value without the whitespace around it:
    the value is the result between two runs of whitespace, and the result
    neither begins nor ends with whitespace. *)
Theorem get_env_variable_spec (env : gmap string pystr) (name : string) :
  (env !! name = None →
     ∃ rest, get_env_variable env name
               = Raised (ValueError ("에러: " +:+ name +:+ rest))) ∧
  (∀ v, env !! name = Some v →
     ∃ s l r,
       get_env_variable env name = Returned s ∧
       v = l ++ s ++ r ∧
       Forall (λ c, isspace c = true) l ∧
       Forall (λ c, isspace c = true) r ∧
       (∀ c, head s = Some c → isspace c = false) ∧
       (∀ c, last s = Some c → isspace c = false)).
Proof.
  unfold get_env_variable. cbv zeta. split.
  - intros Hn. unfold pystr in *. rewrite Hn. eexists. reflexivity.
  - intros v Hv. destruct (strip_spec v) as (l & r & H).
    exists (strip v), l, r. split; [|exact H].
    unfold pystr in *. by rewrite Hv.
Qed.

Lemma get_env_variable_spec_witness :
  let env : gmap string pystr :=
    {[ "NEO4J_URI" := [32; 98; 111; 108; 116; 10]%N ]} in
  (∃ rest, get_env_variable env "NEO4J_USERNAME"
             = Raised (ValueError ("에러: NEO4J_USERNAME" +:+ rest))) ∧
  (∃ s l r, get_env_variable env "NEO4J_URI" = Returned s ∧
            [32; 98; 111; 108; 116; 10]%N = l ++ s ++ r).
Proof.
  intros env. split.
  - apply (proj1 (get_env_variable_spec env "NEO4J_USERNAME")). reflexivity.
  - destruct (proj2 (get_env_variable_spec env "NEO4J_URI")
                [32; 98; 111; 108; 116; 10]%N eq_refl)
      as (s & l & r & Hs & Hv & _).
    exists s, l, r. split; [exact Hs|exact Hv].
Defined.

(** X15: stripping is idempotent, returns a value that has no whitespace
    around it unchanged, and turns a blank value into the empty string, so
    [get_env_variable] answers a blank setting with [""] and no error. *)
Theorem strip_fixed_points (v : pystr) :
  strip (strip v) = strip v ∧
  ((∀ c, head v = Some c → isspace c = false) →
   (∀ c, last v = Some c → isspace c = false) → strip v = v) ∧
  (Forall (λ c, isspace c = true) v → strip v = [] ∧
     ∀ env name, env !! name = Some v →
       get_env_variable env name = Returned []).
Proof.
  assert (Hfix : ∀ s : pystr,
            (∀ c, head s = Some c → isspace c = false) →
            (∀ c, last s = Some c → isspace c = false) → strip s = s).
  { intros s Hh Hl. unfold strip. rewrite (lstrip_fixed s Hh).
    by apply rstrip_fixed. }
  assert (Hblank : Forall (λ c, isspace c = true) v → strip v = []).
  { intros Hv. unfold strip.
    assert (lstrip v = []) as ->.
    { induction Hv as [|a s Ha _ IH]; simpl; [done|]. by rewrite Ha. }
    reflexivity. }
  split; [|split].
  - destruct (strip_spec v) as (l & r & _ & _ & _ & Hh & Hl).
    by apply Hfix.
  - apply Hfix.
  - intros Hv. split; [by apply Hblank|].
    intros env name Hn. unfold get_env_variable. cbv zeta.
    unfold pystr in *. rewrite Hn.
    by rewrite Hblank.
Qed.

Lemma strip_fixed_points_witness :
  strip [98; 111; 108; 116]%N = [98; 111; 108; 116]%N ∧
  strip [32; 9; 10]%N = [].
Proof.
  split.
  - apply (proj1 (proj2 (strip_fixed_points [98; 111; 108; 116]%N)));
      intros c [= <-]; reflexivity.
  - apply (proj2 (proj2 (strip_fixed_points [32; 9; 10]%N))).
    repeat constructor.
Defined.
